(** * snr_analysis.py: signal-to-noise ratio of compressed audio

    A shallow embedding of [snr_analysis.py] and the properties of its
    SNR pipeline: [calculate_snr], the truncation of the two signals to a
    common length, the catalogue loop that fills the six result lists, and
    the substitution of the placeholder value used for the bar charts.

    Numbers.  Samples are finite amplitudes and are modelled as real
    numbers; arithmetic on finite values is exact (no rounding, overflow or
    underflow).  The values numpy produces outside the finite range are
    modelled as they arise in the script: [nan] for the mean of an empty
    array and for [0/0], [-inf] for [log10 0], [+inf] for the literal
    [np.inf].  The sign of a zero is not tracked.  The text written by
    [print] is not modelled.

    Two further embeddings of [calculate_snr] show what the exact one
    leaves out: [Float64.calculate_snr] computes with IEEE binary64
    numbers, where squares underflow and quotients overflow, and
    [Warned.calculate_snr] records the warnings that numpy emits. *)

From Stdlib Require Import PrimFloat.
From Stdlib Require Import Reals Lra ZArith.
From stdpp Require Import base decidable option list strings gmap.

Open Scope Z_scope.
Open Scope R_scope.

(** ** Exceptions *)

Inductive exn : Type :=
  | ValueError            (* numpy: operands could not be broadcast together *)
  | LoadError (path : string).  (* librosa.load could not read the file *)

Inductive result (A : Type) : Type :=
  | Ok (a : A)
  | Raise (e : exn).
Arguments Ok {A} a.
Arguments Raise {A} e.

#[global] Instance result_ret : MRet result := fun A a => Ok a.

#[global] Instance result_bind : MBind result := fun A B k r =>
  match r with
  | Ok a => k a
  | Raise e => Raise e
  end.

(** ** numpy scalars *)

(** A numpy floating-point scalar: a finite value or one of the three
    special values. *)
Inductive npfloat : Type :=
  | Finite (x : R)
  | PosInf
  | NegInf
  | NaN.

#[global] Instance R_eq_dec : EqDecision R := Req_dec_T.

#[global] Instance R_lt_dec : RelDecision Rlt := Rlt_dec.

(** The array type: a one-dimensional array of samples. *)
Definition ndarray : Type := list R.

(** The real logarithm to base ten, for positive arguments. *)
Definition Rlog10 (x : R) : R := ln x / ln 10.

Module Np.

(** [np.inf] *)
Definition inf : npfloat := PosInf.

(** [x == y] on scalars: [nan] equals nothing, not even itself. *)
Definition eqb (x y : npfloat) : bool :=
  match x, y with
  | Finite a, Finite b => bool_decide (a = b)
  | PosInf, PosInf => true
  | NegInf, NegInf => true
  | _, _ => false
  end.

(** [x / y].  A finite value divided by zero gives an infinity of the sign
    of the dividend, and [0 / 0] gives [nan]. *)
Definition div (x y : npfloat) : npfloat :=
  match x, y with
  | NaN, _ | _, NaN => NaN
  | Finite a, Finite b =>
      if decide (b = 0) then
        if decide (a = 0) then NaN
        else if decide (0 < a) then PosInf else NegInf
      else Finite (a / b)
  | Finite _, (PosInf | NegInf) => Finite 0
  | PosInf, Finite b => if decide (b < 0) then NegInf else PosInf
  | NegInf, Finite b => if decide (b < 0) then PosInf else NegInf
  | (PosInf | NegInf), (PosInf | NegInf) => NaN
  end.

(** [x * y] *)
Definition mul (x y : npfloat) : npfloat :=
  match x, y with
  | NaN, _ | _, NaN => NaN
  | Finite a, Finite b => Finite (a * b)
  | Finite a, PosInf | PosInf, Finite a =>
      if decide (a = 0) then NaN
      else if decide (0 < a) then PosInf else NegInf
  | Finite a, NegInf | NegInf, Finite a =>
      if decide (a = 0) then NaN
      else if decide (0 < a) then NegInf else PosInf
  | PosInf, PosInf | NegInf, NegInf => PosInf
  | PosInf, NegInf | NegInf, PosInf => NegInf
  end.

(** [np.log10 x] *)
Definition log10 (x : npfloat) : npfloat :=
  match x with
  | Finite a =>
      if decide (0 < a) then Finite (Rlog10 a)
      else if decide (a = 0) then NegInf
      else NaN
  | PosInf => PosInf
  | NegInf => NaN
  | NaN => NaN
  end.

(** Arrays *)

(** [np.square x] *)
Definition square (x : ndarray) : ndarray := map (fun v => v * v) x.

(** [x - y] with numpy's broadcasting of one-dimensional shapes: equal
    lengths subtract element by element, a length-one operand is stretched
    over the other, any other pair of shapes raises [ValueError]. *)
Definition subtract (x y : ndarray) : result ndarray :=
  if decide (length x = length y) then Ok (zip_with Rminus x y)
  else match x, y with
       | [a], _ => Ok (map (fun b => a - b) y)
       | _, [b] => Ok (map (fun a => a - b) x)
       | _, _ => Raise ValueError
       end.

(** [np.add.reduce x] *)
Definition sum (x : ndarray) : R := foldr Rplus 0 x.

(** [np.mean x]: the sum divided by the number of items, which is
    [0 / 0 = nan] for an empty array. *)
Definition mean (x : ndarray) : npfloat :=
  div (Finite (sum x)) (Finite (INR (length x))).

(** [c * x] for a scalar [c] *)
Definition scale (c : R) (x : ndarray) : ndarray := map (Rmult c) x.

End Np.

(** ** calculate_snr *)

Definition calculate_snr (original compressed : ndarray) : result npfloat :=
  let signal_power := Np.mean (Np.square original) in
  d ← Np.subtract original compressed;
  let noise_power := Np.mean (Np.square d) in
  if Np.eqb noise_power (Finite 0) then
    Ok Np.inf
  else
    Ok (Np.mul (Finite 10) (Np.log10 (Np.div signal_power noise_power))).

(** The two local variables of [calculate_snr], as functions of its
    arguments. *)
Definition signal_power_of (original : ndarray) : npfloat :=
  Np.mean (Np.square original).

Definition noise_power_of (original compressed : ndarray) : result npfloat :=
  d ← Np.subtract original compressed;
  Ok (Np.mean (Np.square d)).

(** ** The decibel formula

    The quantities named in the description of the calculator, written
    over the reals: the mean of a sequence, the signal power (mean of the
    squared reference samples), the noise power (mean of the squared
    per-sample differences) and the decibel value. *)

Definition real_mean (l : list R) : R := foldr Rplus 0 l / INR (length l).

Definition mean_square (a : list R) : R :=
  real_mean (map (fun v => v ^ 2) a).

Definition mean_square_difference (a b : list R) : R :=
  real_mean (zip_with (fun x y => (x - y) ^ 2) a b).

Definition decibels (a b : list R) : R :=
  10 * Rlog10 (mean_square a / mean_square_difference a b).

(** Two sequences differ in at least one element. *)
Definition differ_somewhere (a b : list R) : Prop :=
  exists (i : nat) (x y : R), a !! i = Some x /\ b !! i = Some y /\ x <> y.

(** ** Python sequences *)

Definition len {A} (l : list A) : Z := Z.of_nat (length l).

(** [l[:stop]]: a negative [stop] counts from the end, and the bounds are
    clamped to the sequence. *)
Definition slice_to {A} (l : list A) (stop : Z) : list A :=
  if decide (stop < 0)%Z then take (Z.to_nat (len l + stop)) l
  else take (Z.to_nat stop) l.

(** ** Truncation to the common length (lines 35-37)

    A numpy slice is a view of the array it is taken from; nothing in the
    script writes to an array, so the view is modelled by its contents. *)

Definition align (original_signal compressed_signal : ndarray)
  : ndarray * ndarray :=
  let min_length := Z.min (len original_signal) (len compressed_signal) in
  (slice_to original_signal min_length, slice_to compressed_signal min_length).

(** ** The catalogue *)

Record file_entry : Type := {
  original : string;
  compressed : string;
  algorithm : string;
  size_mb : R;
  duration_sec : Z;
  bitrate_kbps : Z
}.

Definition files : list file_entry := [
  {| original := "elliot-og.wav"; compressed := "elliot-mp3.mp3";
     algorithm := "ELLIOT-MP3"; size_mb := 253 / 100;
     duration_sec := 2 * 60 + 36; bitrate_kbps := 128 |};
  {| original := "flow-og.wav"; compressed := "flow-aac.aac";
     algorithm := "FLOW-AAC"; size_mb := 314 / 100;
     duration_sec := 3 * 60 + 25; bitrate_kbps := 160 |};
  {| original := "sinatra-og.wav"; compressed := "sinatra-flac.flac";
     algorithm := "SINATRA-FLAC"; size_mb := 16;
     duration_sec := 3 * 60 + 14; bitrate_kbps := 1000 |};
  {| original := "waltz-og.wav"; compressed := "waltz-ogg.ogg";
     algorithm := "WALTZ-OGG"; size_mb := 260 / 100;
     duration_sec := 3 * 60 + 50; bitrate_kbps := 192 |}
].

(** The six result lists of the script. *)
Record dataset : Type := {
  compressed_snr_values : list npfloat;
  wav_snr_values : list npfloat;
  algorithm_labels : list string;
  file_sizes : list R;
  durations : list R;
  bit_rates : list Z
}.

Definition initial : dataset :=
  {| compressed_snr_values := []; wav_snr_values := [];
     algorithm_labels := []; file_sizes := [];
     durations := []; bit_rates := [] |}.

(** ** The loop over the catalogue (lines 30-49) *)

Section Loop.

(** [librosa.load(path, sr=None)]: the samples and the sample rate, or an
    exception. *)
Variable load : string -> result (ndarray * Z).

Definition loop_body (file : file_entry) (st : dataset) : result dataset :=
  '(original_signal, fs1) ← load (original file);
  '(compressed_signal, fs2) ← load (compressed file);
  let '(original_signal, compressed_signal) :=
    align original_signal compressed_signal in
  compressed_snr ← calculate_snr original_signal compressed_signal;
  wav_snr ← calculate_snr original_signal original_signal;
  Ok {| compressed_snr_values := compressed_snr_values st ++ [compressed_snr];
        wav_snr_values := wav_snr_values st ++ [wav_snr];
        algorithm_labels := algorithm_labels st ++ [algorithm file];
        file_sizes := file_sizes st ++ [size_mb file];
        durations := durations st ++ [IZR (duration_sec file) / 60];
        bit_rates := bit_rates st ++ [bitrate_kbps file] |}.

(** The value that one iteration appends to [compressed_snr_values]. *)
Definition compressed_snr_of (file : file_entry) : result npfloat :=
  '(original_signal, fs1) ← load (original file);
  '(compressed_signal, fs2) ← load (compressed file);
  let '(original_signal, compressed_signal) :=
    align original_signal compressed_signal in
  calculate_snr original_signal compressed_signal.

(** An exception in the body ends the loop and the script. *)
Fixpoint process_files (fs : list file_entry) (st : dataset)
  : result dataset :=
  match fs with
  | [] => Ok st
  | file :: rest => st' ← loop_body file st; process_files rest st'
  end.

(** Both files of the entry load, and neither signal is empty. *)
Definition loads_signals (file : file_entry) : Prop :=
  exists (s s' : ndarray) (r r' : Z),
    load (original file) = Ok (s, r) /\
    load (compressed file) = Ok (s', r') /\
    s <> [] /\ s' <> [].

(** What the six lists hold for the catalogue [fs]. *)
Definition holds_records (fs : list file_entry) (st : dataset) : Prop :=
  Forall2 (fun file v => compressed_snr_of file = Ok v)
    fs (compressed_snr_values st) /\
  wav_snr_values st = replicate (length fs) Np.inf /\
  algorithm_labels st = map algorithm fs /\
  file_sizes st = map size_mb fs /\
  durations st = map (fun file => IZR (duration_sec file) / 60) fs /\
  bit_rates st = map bitrate_kbps fs.

End Loop.

(** A loader that succeeds on every path with a signal of no samples. *)
Definition load_nothing (path : string) : result (ndarray * Z) :=
  Ok ([], 22050%Z).

(** A loader that returns the same two-sample signal for every path. *)
Definition load_constant (path : string) : result (ndarray * Z) :=
  Ok ([1; -1], 44100%Z).

(** ** Values and labels of the bar charts (lines 56-57, 69-74, 92-96) *)

(** [[100 if v == np.inf else v for v in values]] *)
Definition visual_snr_values (values : list npfloat) : list npfloat :=
  map (fun v => if Np.eqb v Np.inf then Finite 100 else v) values.

(** Lines 56 and 57. *)
Definition compressed_visual_snr_values (st : dataset) : list npfloat :=
  visual_snr_values (compressed_snr_values st).

Definition wav_visual_snr_values (st : dataset) : list npfloat :=
  visual_snr_values (wav_snr_values st).

Inductive label_text : Type :=
  | InfinityGlyph                 (* the string "∞" *)
  | TwoDecimals (value : npfloat). (* f"{value:.2f}" *)

(** A call of [plt.text]: the offset above the bar, the text and whether it
    is drawn in red. *)
Record bar_label : Type := {
  offset : R;
  text : label_text;
  red : bool
}.

Definition label_of (value : npfloat) : bar_label :=
  if Np.eqb value Np.inf then
    {| offset := 2; text := InfinityGlyph; red := true |}
  else
    {| offset := 1 / 2; text := TwoDecimals value; red := false |}.

Definition bar_labels (values : list npfloat) : list bar_label :=
  map label_of values.

(** ** calculate_snr over a heap of arrays

    numpy arrays are mutable objects, and the script passes the same array
    as both arguments of [calculate_snr] on line 41.  This second embedding
    keeps the arrays in a heap and passes their locations, so that what the
    function does to its arguments can be stated: [np.square] and [-]
    allocate their result, [np.mean] only reads. *)

Module Heap.

Definition loc : Type := positive.

(** Reading a location that holds no array does not happen in Python; the
    outcome [None] keeps the operations total. *)
Definition M (A : Type) : Type :=
  gmap loc ndarray -> option (result A) * gmap loc ndarray.

#[global] Instance M_ret : MRet M := fun A a h => (Some (Ok a), h).

#[global] Instance M_bind : MBind M := fun A B k m h =>
  match m h with
  | (Some (Ok a), h') => k a h'
  | (Some (Raise e), h') => (Some (Raise e), h')
  | (None, h') => (None, h')
  end.

Definition alloc (a : ndarray) : M loc := fun h =>
  let l := fresh (dom h) in (Some (Ok l), <[l:=a]> h).

Definition read (l : loc) : M ndarray := fun h =>
  match h !! l with
  | Some a => (Some (Ok a), h)
  | None => (None, h)
  end.

Definition lift {A} (r : result A) : M A := fun h => (Some r, h).

Definition square (x : loc) : M loc :=
  a ← read x; alloc (Np.square a).

Definition subtract (x y : loc) : M loc :=
  a ← read x; b ← read y; d ← lift (Np.subtract a b); alloc d.

Definition mean (x : loc) : M npfloat :=
  a ← read x; mret (Np.mean a).

Definition calculate_snr (original compressed : loc) : M npfloat :=
  sq ← square original;
  signal_power ← mean sq;
  d ← subtract original compressed;
  sq' ← square d;
  noise_power ← mean sq';
  if Np.eqb noise_power (Finite 0) then
    mret Np.inf
  else
    mret (Np.mul (Finite 10) (Np.log10 (Np.div signal_power noise_power))).

End Heap.

(** ** The loops that label the bars (lines 69-74 and 92-96)

    A bar is represented by its height.  The first loop goes through the
    bars and reads the value at the index of the bar; [None] stands for the
    [IndexError] of an index past the end of [wav_snr_values].  The second
    loop goes through [zip(compressed_snr_values, bars)], which stops at
    the end of the shorter sequence. *)

Fixpoint wav_label_loop_from (i : nat) (bars : list npfloat)
    (wav_snr_values : list npfloat) : option (list bar_label) :=
  match bars with
  | [] => Some []
  | bar :: rest =>
      value ← wav_snr_values !! i;
      labels ← wav_label_loop_from (S i) rest wav_snr_values;
      Some (label_of value :: labels)
  end.

Definition wav_label_loop (bars wav_snr_values : list npfloat)
  : option (list bar_label) :=
  wav_label_loop_from 0 bars wav_snr_values.

Definition compressed_label_loop (compressed_snr_values bars : list npfloat)
  : list bar_label :=
  map (fun '(value, bar) => label_of value) (zip compressed_snr_values bars).

(** ** Loaders that succeed *)

(** Both files of the entry load; the signals may be empty. *)
Definition loads (load : string -> result (ndarray * Z))
    (file : file_entry) : Prop :=
  exists (s s' : ndarray) (r r' : Z),
    load (original file) = Ok (s, r) /\
    load (compressed file) = Ok (s', r').

(** The reference value of an entry: [np.inf] when both signals have
    samples, and [nan], like the value of the compressed file, when one of
    them has none. *)
Definition reference_is (load : string -> result (ndarray * Z))
    (file : file_entry) (w : npfloat) : Prop :=
  (loads_signals load file -> w = PosInf) /\
  (~ loads_signals load file -> w = NaN).

Definition compressed_is (load : string -> result (ndarray * Z))
    (file : file_entry) (v : npfloat) : Prop :=
  ~ loads_signals load file -> v = NaN.

(** The lists after a run over [files] in which no file has samples. *)
Definition dataset_of_empty_files : dataset :=
  {| compressed_snr_values := replicate 4 NaN;
     wav_snr_values := replicate 4 NaN;
     algorithm_labels := map algorithm files;
     file_sizes := map size_mb files;
     durations := map (fun file => IZR (duration_sec file) / 60) files;
     bit_rates := map bitrate_kbps files |}.

(** A loader for one pair of signals, whatever the path. *)
Definition load_pair (s s' : ndarray) (path : string)
  : result (ndarray * Z) :=
  if decide (path = "elliot-og.wav") then Ok (s, 44100%Z)
  else Ok (s', 44100%Z).

(** A loader that knows no file. *)
Definition load_fails (path : string) : result (ndarray * Z) :=
  Raise (LoadError path).

(** ** calculate_snr on float64 arrays

    This embedding computes with IEEE binary64 numbers, as numpy does on
    arrays of [float64]: products, sums and quotients round, underflow to
    zero and overflow to infinity.  Two parts of numpy are outside it.
    [np.add.reduce] adds the items from left to right only in arrays of
    fewer than eight items, so the sum is [None] for longer ones.
    [np.log10] is not an operation of IEEE arithmetic: the outcome of line
    11 is kept as the quotient handed to [np.log10], and its value is given
    where it is fixed, at zeros, infinities, negative numbers and [nan]. *)

Module Float64.

(** [np.square x] *)
Definition square (x : list float) : list float :=
  map (fun v => PrimFloat.mul v v) x.

(** [x - y], with the broadcasting of [Np.subtract] *)
Definition subtract (x y : list float) : result (list float) :=
  if decide (length x = length y) then Ok (zip_with PrimFloat.sub x y)
  else match x, y with
       | [a], _ => Ok (map (fun b => PrimFloat.sub a b) y)
       | _, [b] => Ok (map (fun a => PrimFloat.sub a b) x)
       | _, _ => Raise ValueError
       end.

(** [np.add.reduce x], for fewer than eight items *)
Definition sum (x : list float) : option float :=
  if decide (length x < 8)%nat then Some (foldl PrimFloat.add 0%float x)
  else None.

(** The number of items, as a float *)
Definition count (x : list float) : float :=
  foldl (fun n _ => PrimFloat.add n 1%float) 0%float x.

(** [np.mean x] *)
Definition mean (x : list float) : option float :=
  s ← sum x; Some (PrimFloat.div s (count x)).

(** The line that returns, with the quotient passed to [np.log10] on line
    11. *)
Inductive outcome : Type :=
  | Line10
  | Line11 (quotient : float).

Definition noise_power (original compressed : list float)
  : option (result float) :=
  match subtract original compressed with
  | Raise e => Some (Raise e)
  | Ok d => noise_power ← mean (square d); Some (Ok noise_power)
  end.

Definition calculate_snr (original compressed : list float)
  : option (result outcome) :=
  signal_power ← mean (square original);
  match subtract original compressed with
  | Raise e => Some (Raise e)
  | Ok d =>
      noise_power ← mean (square d);
      if PrimFloat.eqb noise_power 0%float then Some (Ok Line10)
      else Some (Ok (Line11 (PrimFloat.div signal_power noise_power)))
  end.

(** [np.log10 x] where its value is fixed *)
Definition log10 (x : float) : option float :=
  if PrimFloat.is_nan x then Some nan
  else if PrimFloat.eqb x 0%float then Some neg_infinity
  else if PrimFloat.ltb x 0%float then Some nan
  else if PrimFloat.eqb x infinity then Some infinity
  else None.

(** The value returned: [np.inf] on line 10, [10 * np.log10(quotient)] on
    line 11. *)
Definition value (o : outcome) : option float :=
  match o with
  | Line10 => Some infinity
  | Line11 quotient => l ← log10 quotient; Some (PrimFloat.mul 10%float l)
  end.

End Float64.

(** ** calculate_snr with numpy's warnings

    numpy reports a floating-point error of an operation by a
    [RuntimeWarning].  This embedding returns, with the outcome of
    [calculate_snr], the warnings of the operations of lines 7, 8 and 11
    that arise over exact arithmetic: the mean of an empty array, a
    division of zero by zero or by zero, of an infinity by an infinity, and
    the logarithm of zero or of a negative number. *)

Inductive warning : Type :=
  | MeanOfEmptySlice    (* "Mean of empty slice." *)
  | InvalidValue        (* "invalid value encountered in ..." *)
  | DivideByZero.       (* "divide by zero encountered in ..." *)

Module Warned.

Definition mean (x : ndarray) : npfloat * list warning :=
  (Np.mean x,
   if decide (x = []) then [MeanOfEmptySlice; InvalidValue] else []).

Definition div (x y : npfloat) : npfloat * list warning :=
  (Np.div x y,
   match x, y with
   | Finite a, Finite b =>
       if decide (b = 0) then
         if decide (a = 0) then [InvalidValue] else [DivideByZero]
       else []
   | (PosInf | NegInf), (PosInf | NegInf) => [InvalidValue]
   | _, _ => []
   end).

Definition log10 (x : npfloat) : npfloat * list warning :=
  (Np.log10 x,
   match x with
   | Finite a =>
       if decide (0 < a) then []
       else if decide (a = 0) then [DivideByZero]
       else [InvalidValue]
   | NegInf => [InvalidValue]
   | _ => []
   end).

Definition mul (x y : npfloat) : npfloat * list warning :=
  (Np.mul x y,
   match x, y with
   | Finite a, (PosInf | NegInf) | (PosInf | NegInf), Finite a =>
       if decide (a = 0) then [InvalidValue] else []
   | _, _ => []
   end).

Definition calculate_snr (original compressed : ndarray)
  : result npfloat * list warning :=
  let '(signal_power, w7) := mean (Np.square original) in
  match Np.subtract original compressed with
  | Raise e => (Raise e, w7)
  | Ok d =>
      let '(noise_power, w8) := mean (Np.square d) in
      if Np.eqb noise_power (Finite 0) then
        (Ok Np.inf, w7 ++ w8)
      else
        let '(quotient, w_div) := div signal_power noise_power in
        let '(logarithm, w_log) := log10 quotient in
        let '(decibel, w_mul) := mul (Finite 10) logarithm in
        (Ok decibel, w7 ++ w8 ++ w_div ++ w_log ++ w_mul)
  end.

End Warned.

(** * Properties *)

(** ** Sums of squares *)

Section SumsOfSquares.

Implicit Types x y : ndarray.

Lemma sum_square_nonneg x : 0 <= Np.sum (Np.square x).
Proof.
  induction x as [|v x IH]; simpl; [lra|].
  pose proof (Rle_0_sqr v) as Hv. unfold Rsqr in Hv. lra.
Qed.

Lemma sum_square_zero x :
  Np.sum (Np.square x) = 0 <-> Forall (fun v => v = 0) x.
Proof.
  induction x as [|v x IH]; simpl.
  - split; [constructor | reflexivity].
  - pose proof (sum_square_nonneg x) as Hx.
    pose proof (Rle_0_sqr v) as Hv. unfold Rsqr in Hv.
    split.
    + intros H. constructor; [nra|]. apply IH. lra.
    + intros H. inversion H as [|? ? Hv0 Hx0]; subst.
      apply IH in Hx0. lra.
Qed.

Lemma zip_minus_zero x y :
  length x = length y ->
  Forall (fun v => v = 0) (zip_with Rminus x y) <-> x = y.
Proof.
  revert y. induction x as [|a x IH]; intros [|b y] Hlen;
    simpl in *; try discriminate.
  - split; [reflexivity | constructor].
  - injection Hlen as Hlen. split.
    + intros H. inversion H as [|? ? Hab Hrest]; subst.
      f_equal; [lra | by apply IH].
    + intros [= -> ->]. constructor; [lra | by apply IH].
Qed.

Lemma length_zip_minus x y :
  length x = length y -> length (zip_with Rminus x y) = length x.
Proof. intros H. rewrite length_zip_with. lia. Qed.

Lemma length_square x : length (Np.square x) = length x.
Proof. unfold Np.square. by rewrite length_map. Qed.

Lemma INR_length_pos x : x <> [] -> 0 < INR (length x).
Proof.
  intros H. destruct x as [|v x]; [done|].
  apply lt_0_INR. simpl. lia.
Qed.

Lemma mean_nil : Np.mean [] = NaN.
Proof.
  unfold Np.mean, Np.div. simpl.
  rewrite !decide_True by reflexivity. reflexivity.
Qed.

Lemma mean_nonempty x :
  x <> [] -> Np.mean x = Finite (Np.sum x / INR (length x)).
Proof.
  intros H. apply INR_length_pos in H.
  unfold Np.mean, Np.div. rewrite decide_False by lra. reflexivity.
Qed.

Lemma subtract_same_length x y :
  length x = length y -> Np.subtract x y = Ok (zip_with Rminus x y).
Proof. intros H. unfold Np.subtract. by rewrite decide_True. Qed.

Lemma sum_scale c x : Np.sum (Np.scale c x) = c * Np.sum x.
Proof. induction x as [|v x IH]; simpl; [lra | rewrite IH; lra]. Qed.

Lemma square_scale c x :
  Np.square (Np.scale c x) = Np.scale (c * c) (Np.square x).
Proof.
  unfold Np.square, Np.scale. rewrite !map_map.
  apply map_ext. intros v. lra.
Qed.

Lemma zip_minus_scale c x y :
  zip_with Rminus (Np.scale c x) (Np.scale c y)
  = Np.scale c (zip_with Rminus x y).
Proof.
  revert y. induction x as [|a x IH]; intros [|b y]; simpl; try done.
  rewrite IH. f_equal. lra.
Qed.

Lemma length_scale c x : length (Np.scale c x) = length x.
Proof. unfold Np.scale. by rewrite length_map. Qed.

End SumsOfSquares.

Section Calculator.

Implicit Types a b : ndarray.

Lemma differ_somewhere_neq a b :
  length a = length b -> differ_somewhere a b <-> a <> b.
Proof.
  revert b. induction a as [|x a IH]; intros [|y b] Hlen;
    simpl in *; try discriminate.
  - split; [intros (i & ? & ? & H & _); by destruct i | done].
  - injection Hlen as Hlen. split.
    + intros (i & u & v & Hu & Hv & Hne) [= -> ->].
      rewrite Hu in Hv. by injection Hv.
    + intros Hne. destruct (decide (x = y)) as [->|Hxy].
      * assert (a <> b) as Hab by (intros ->; done).
        apply IH in Hab as (i & u & v & Hu & Hv & Huv); [|done].
        by exists (S i), u, v.
      * by exists 0%nat, x, y.
Qed.

Lemma mean_square_eq a :
  mean_square a = Np.sum (Np.square a) / INR (length a).
Proof.
  unfold mean_square, real_mean. rewrite length_map. f_equal.
  unfold Np.sum, Np.square.
  induction a as [|v a IH]; [done|].
  cbn [map foldr]. rewrite IH. lra.
Qed.

Lemma mean_square_difference_eq a b :
  mean_square_difference a b
  = Np.sum (Np.square (zip_with Rminus a b))
    / INR (length (zip_with Rminus a b)).
Proof.
  unfold mean_square_difference, real_mean.
  rewrite !length_zip_with. f_equal.
  unfold Np.sum, Np.square. revert b.
  induction a as [|x a IH]; intros [|y b]; try done.
  cbn [zip_with map foldr]. rewrite IH. lra.
Qed.

Lemma signal_power_mean_square a :
  a <> [] -> signal_power_of a = Finite (mean_square a).
Proof.
  intros Ha. unfold signal_power_of.
  rewrite mean_nonempty by (by destruct a).
  by rewrite length_square, mean_square_eq.
Qed.

Lemma noise_power_mean_square_difference a b :
  length a = length b -> a <> [] ->
  noise_power_of a b = Ok (Finite (mean_square_difference a b)).
Proof.
  intros Hlen Ha. unfold noise_power_of.
  rewrite subtract_same_length by done. simpl.
  rewrite mean_nonempty by (destruct a, b; simpl in *; done).
  by rewrite length_square, mean_square_difference_eq.
Qed.

Lemma mean_square_nonneg a : a <> [] -> 0 <= mean_square a.
Proof.
  intros Ha. rewrite mean_square_eq.
  apply Rmult_le_pos; [apply sum_square_nonneg|].
  left. by apply Rinv_0_lt_compat, INR_length_pos.
Qed.

Lemma mean_square_zero a :
  a <> [] -> mean_square a = 0 <-> Forall (fun v => v = 0) a.
Proof.
  intros Ha. rewrite mean_square_eq, <- sum_square_zero.
  pose proof (INR_length_pos a Ha) as Hn.
  split; intros H.
  - apply (Rmult_eq_compat_r (INR (length a))) in H.
    unfold Rdiv in H. rewrite Rmult_assoc, Rinv_l in H by lra. lra.
  - rewrite H. unfold Rdiv. lra.
Qed.

Lemma mean_square_difference_nonneg a b :
  length a = length b -> a <> [] -> 0 <= mean_square_difference a b.
Proof.
  intros Hlen Ha. rewrite mean_square_difference_eq.
  apply Rmult_le_pos; [apply sum_square_nonneg|].
  left. apply Rinv_0_lt_compat, INR_length_pos.
  destruct a, b; simpl in *; done.
Qed.

Lemma mean_square_difference_zero a b :
  length a = length b -> a <> [] ->
  mean_square_difference a b = 0 <-> a = b.
Proof.
  intros Hlen Ha.
  rewrite mean_square_difference_eq, <- (zip_minus_zero a b Hlen).
  rewrite <- sum_square_zero.
  assert (0 < INR (length (zip_with Rminus a b))) as Hn.
  { apply INR_length_pos. destruct a, b; simpl in *; done. }
  split; intros H.
  - apply (Rmult_eq_compat_r (INR (length (zip_with Rminus a b)))) in H.
    unfold Rdiv in H. rewrite Rmult_assoc, Rinv_l in H by lra. lra.
  - rewrite H. unfold Rdiv. lra.
Qed.

(** The three outcomes of [calculate_snr] on two arrays of one positive
    length. *)
Lemma calculate_snr_cases a b :
  length a = length b -> a <> [] ->
  calculate_snr a b =
    Ok (if decide (mean_square_difference a b = 0) then PosInf
        else if decide (mean_square a = 0) then NegInf
        else Finite (decibels a b)).
Proof.
  intros Hlen Ha.
  pose proof (noise_power_mean_square_difference a b Hlen Ha) as Hn.
  pose proof (signal_power_mean_square a Ha) as Hs.
  pose proof (mean_square_nonneg a Ha) as Hs0.
  pose proof (mean_square_difference_nonneg a b Hlen Ha) as Hn0.
  unfold noise_power_of, signal_power_of in Hn, Hs.
  unfold calculate_snr. rewrite Hs.
  destruct (Np.subtract a b) as [d|e]; simpl in Hn |- *; [|done].
  injection Hn as ->. unfold Np.eqb.
  destruct (decide (mean_square_difference a b = 0)) as [Hz|Hz].
  - by rewrite bool_decide_eq_true_2.
  - rewrite bool_decide_eq_false_2 by done.
    unfold Np.div. rewrite decide_False by done.
    f_equal. unfold Np.log10.
    destruct (decide (mean_square a = 0)) as [Hsz|Hsz].
    + rewrite Hsz. unfold Rdiv. rewrite Rmult_0_l.
      rewrite decide_False by lra. rewrite decide_True by done.
      simpl. rewrite decide_False by lra. by rewrite decide_True by lra.
    + rewrite decide_True; [done|].
      apply Rdiv_lt_0_compat; lra.
Qed.

Lemma mean_square_difference_same a :
  a <> [] -> mean_square_difference a a = 0.
Proof. intros Ha. by apply mean_square_difference_zero. Qed.

End Calculator.

(** Evaluation of the means of a literal array. *)
Ltac eval_means :=
  unfold decibels, mean_square, mean_square_difference, real_mean;
  cbn [map zip_with foldr length INR].

Ltac eval_snr :=
  rewrite calculate_snr_cases by done; eval_means;
  repeat (case_decide; try lra); try done.

(** ** C1: the decibel value of two different signals *)

(** C1, as stated, fails for a silent reference: the arrays [[0]] and [[1]]
    have one positive length and differ, and the value returned is not the
    finite number of the formula. *)
Lemma zero_reference_is_not_finite :
  ~ (length [0] = length [1] -> (0 < length [0])%nat ->
     differ_somewhere [0] [1] ->
     calculate_snr [0] [1] = Ok (Finite (decibels [0] [1]))).
Proof.
  intros H.
  assert (calculate_snr [0] [1] = Ok NegInf) as Hv by eval_snr.
  rewrite Hv in H.
  assert (differ_somewhere [0] [1]) as Hd.
  { exists 0%nat, 0, 1. repeat split; lra. }
  specialize (H eq_refl (Nat.lt_0_1) Hd). discriminate H.
Qed.

(** C1 (amended): over exact arithmetic, for two sample sequences [a] and
    [b] of one positive length that differ in at least one element, where
    [a] has a non-zero sample, [calculate_snr a b] returns the finite
    decibel value [10 * log10 (mean (a^2) / mean ((a-b)^2))].  (In binary64
    the squares can underflow or overflow, see [float64_underflow] and
    [float64_overflow] below.) *)
Theorem calculate_snr_decibels (a b : ndarray) :
  length a = length b -> (0 < length a)%nat ->
  differ_somewhere a b ->
  (exists v, v ∈ a /\ v <> 0) ->
  calculate_snr a b = Ok (Finite (decibels a b)).
Proof.
  intros Hlen Hpos Hdiff (v & Hv & Hv0).
  assert (a <> []) as Ha by (destruct a; simpl in *; [lia | done]).
  rewrite calculate_snr_cases by done.
  rewrite decide_False.
  - rewrite decide_False; [done|].
    rewrite mean_square_zero by done. intros Hall.
    rewrite Forall_forall in Hall. by apply Hv0, Hall.
  - rewrite mean_square_difference_zero by done.
    by apply differ_somewhere_neq.
Qed.

Lemma calculate_snr_decibels_witness :
  calculate_snr [1; -1; 1; -1] [1/2; -1/2; 1/2; -1/2]
  = Ok (Finite (decibels [1; -1; 1; -1] [1/2; -1/2; 1/2; -1/2])).
Proof.
  apply calculate_snr_decibels.
  - reflexivity.
  - simpl. lia.
  - exists 0%nat, 1, (1/2). repeat split. lra.
  - exists 1. split; [apply list_elem_of_here | lra].
Defined.

(** The scenario of the description: signal power 1, noise power 1/4,
    hence [10 * log10 4]. *)
Example decibels_scenario :
  decibels [1; -1; 1; -1] [1/2; -1/2; 1/2; -1/2] = 10 * Rlog10 4.
Proof. eval_means. do 2 f_equal. lra. Qed.

(** ** C2: a signal compared with itself *)

(** C2: for every non-empty sample sequence [a], [calculate_snr a a]
    returns the perfect-reconstruction value [np.inf]; it is neither a
    finite value nor an exception. *)
Theorem calculate_snr_self (a : ndarray) :
  a <> [] -> calculate_snr a a = Ok Np.inf.
Proof.
  intros Ha. rewrite calculate_snr_cases by done.
  by rewrite decide_True by (by apply mean_square_difference_same).
Qed.

Lemma calculate_snr_self_witness :
  calculate_snr [1; 1; 1; 1] [1; 1; 1; 1] = Ok Np.inf.
Proof. apply calculate_snr_self. discriminate. Defined.

(** ** C3: the test for zero noise is exact *)





(** ** C9: a silent reference *)

(** C9, as stated, fails in binary64: the reference [[0; 0]] is all zeros
    and the test [[0; 2^-600]] differs from it, but the square of the
    difference underflows to zero, the noise power is zero and line 10
    returns [np.inf], not negative infinity. *)
Lemma float64_silent_reference_underflow :
  Float64.noise_power [0; 0]%float [0; 0x1p-600]%float
  = Some (Ok 0%float) /\
  Float64.calculate_snr [0; 0]%float [0; 0x1p-600]%float
  = Some (Ok Float64.Line10) /\
  Float64.value Float64.Line10 = Some infinity.
Proof. repeat split; reflexivity. Qed.

(** C9 (amended): when the reference is all zeros and the noise power
    computed against a test of the same positive length is not zero,
    [calculate_snr] takes the second branch and returns negative infinity,
    which is neither [np.inf] nor a finite value nor an exception.  Over
    exact arithmetic the noise power is not zero whenever the test differs
    from the reference somewhere. *)
Theorem calculate_snr_silent_reference (a b : ndarray) :
  length a = length b -> a <> [] ->
  Forall (fun v => v = 0) a ->
  (forall n : npfloat,
     noise_power_of a b = Ok n -> Np.eqb n (Finite 0) = false ->
     calculate_snr a b = Ok NegInf) /\
  (differ_somewhere a b -> calculate_snr a b = Ok NegInf).
Proof.
  intros Hlen Ha Hzero.
  assert (mean_square_difference a b <> 0 -> calculate_snr a b = Ok NegInf)
    as Hneg.
  { intros Hn. rewrite calculate_snr_cases by done.
    rewrite decide_False by done.
    rewrite decide_True; [done|]. by apply mean_square_zero. }
  split.
  - intros n Hn Hne. apply Hneg. intros Hz.
    rewrite noise_power_mean_square_difference in Hn by done.
    injection Hn as <-. rewrite Hz in Hne. simpl in Hne.
    by rewrite bool_decide_eq_true_2 in Hne.
  - intros Hdiff. apply Hneg.
    rewrite mean_square_difference_zero by done.
    by apply differ_somewhere_neq.
Qed.

Lemma calculate_snr_silent_reference_witness :
  calculate_snr [0; 0] [0; 1] = Ok NegInf /\
  calculate_snr [0; 0] [0; 1] = Ok NegInf.
Proof.
  destruct (calculate_snr_silent_reference [0; 0] [0; 1])
    as [Hnoise Hdiffer].
  - reflexivity.
  - discriminate.
  - by repeat constructor.
  - split.
    + apply (Hnoise (Finite (1 / 2))).
      * rewrite noise_power_mean_square_difference by done.
        do 2 f_equal. eval_means. lra.
      * simpl. apply bool_decide_eq_false_2. lra.
    + apply Hdiffer. exists 1%nat, 0, 1. repeat split. lra.
Defined.

(** ** C10: scaling both signals *)

Section Scaling.

Variable c : R.
Hypothesis c_nonzero : c <> 0.

Implicit Types a b : ndarray.

Lemma mean_square_scale a :
  mean_square (Np.scale c a) = c * c * mean_square a.
Proof.
  rewrite !mean_square_eq, square_scale, sum_scale.
  rewrite !length_scale. unfold Rdiv. ring.
Qed.

Lemma mean_square_difference_scale a b :
  mean_square_difference (Np.scale c a) (Np.scale c b)
  = c * c * mean_square_difference a b.
Proof.
  rewrite !mean_square_difference_eq, zip_minus_scale.
  rewrite square_scale, sum_scale, !length_scale.
  unfold Rdiv. ring.
Qed.

Lemma scale_nonempty a : a <> [] -> Np.scale c a <> [].
Proof. by destruct a. Qed.

Lemma square_nonzero : c * c <> 0.
Proof. nra. Qed.

Lemma decibels_scale a b :
  mean_square_difference a b <> 0 ->
  decibels (Np.scale c a) (Np.scale c b) = decibels a b.
Proof.
  intros Hn. unfold decibels.
  rewrite mean_square_scale, mean_square_difference_scale.
  do 2 f_equal. field. split; [done | apply c_nonzero].
Qed.

Lemma calculate_snr_scale a b :
  length a = length b -> a <> [] ->
  calculate_snr (Np.scale c a) (Np.scale c b) = calculate_snr a b.
Proof.
  intros Hlen Ha. pose proof square_nonzero as Hc.
  rewrite !calculate_snr_cases;
    [| done | done | by rewrite !length_scale | by apply scale_nonempty].
  rewrite mean_square_scale, mean_square_difference_scale.
  destruct (decide (mean_square_difference a b = 0)) as [Hn|Hn].
  - rewrite Hn, Rmult_0_r. by rewrite decide_True.
  - rewrite decide_False by nra.
    destruct (decide (mean_square a = 0)) as [Hs|Hs].
    + rewrite Hs, Rmult_0_r. by rewrite decide_True.
    + rewrite decide_False by nra. by rewrite decibels_scale.
Qed.

Lemma noise_power_scale a b :
  length a = length b -> a <> [] ->
  noise_power_of (Np.scale c a) (Np.scale c b) = Ok (Finite 0)
  <-> noise_power_of a b = Ok (Finite 0).
Proof.
  intros Hlen Ha. pose proof square_nonzero as Hc.
  rewrite !noise_power_mean_square_difference;
    [| done | done | by rewrite !length_scale | by apply scale_nonempty].
  rewrite mean_square_difference_scale.
  split; intros [= H]; do 2 f_equal; nra.
Qed.

End Scaling.

(** C10: over exact arithmetic [calculate_snr] is invariant under scaling:
    for every non-zero [c] and every two sequences [a], [b] of one positive
    length, [calculate_snr (c*a) (c*b) = calculate_snr a b], and the noise
    power of the scaled pair is zero exactly when that of [a], [b] is. *)
Theorem calculate_snr_scale_invariant (c : R) (a b : ndarray) :
  c <> 0 -> length a = length b -> a <> [] ->
  calculate_snr (Np.scale c a) (Np.scale c b) = calculate_snr a b /\
  (noise_power_of (Np.scale c a) (Np.scale c b) = Ok (Finite 0)
   <-> noise_power_of a b = Ok (Finite 0)).
Proof.
  intros Hc Hlen Ha. split.
  - by apply calculate_snr_scale.
  - by apply noise_power_scale.
Qed.

Lemma calculate_snr_scale_invariant_witness :
  calculate_snr (Np.scale 3 [1; -1]) (Np.scale 3 [1/2; -1/2])
  = calculate_snr [1; -1] [1/2; -1/2] /\
  (noise_power_of (Np.scale 3 [1; -1]) (Np.scale 3 [1/2; -1/2])
   = Ok (Finite 0)
   <-> noise_power_of [1; -1] [1/2; -1/2] = Ok (Finite 0)).
Proof.
  apply calculate_snr_scale_invariant; [lra | reflexivity | discriminate].
Defined.

(** ** C6: empty signals *)

Lemma calculate_snr_nil : calculate_snr [] [] = Ok NaN.
Proof.
  unfold calculate_snr. simpl. rewrite mean_nil. reflexivity.
Qed.

(** C6, as stated, fails: for two empty arrays no exception is raised and
    the value returned is [nan]. *)
Lemma empty_signals_give_nan :
  calculate_snr [] [] = Ok NaN /\
  (forall e : exn, calculate_snr [] [] <> Raise e).
Proof.
  rewrite calculate_snr_nil. split; [done|]. intros e He. discriminate He.
Qed.

(** C6 (amended): when the reference or the test sequence is empty,
    [calculate_snr] reports no degenerate signal.  If the other sequence has
    at most one sample the value returned is [nan]; if it has two or more,
    the subtraction raises numpy's [ValueError] for shapes that cannot be
    broadcast. *)
Theorem calculate_snr_empty (a b : ndarray) :
  a = [] \/ b = [] ->
  (calculate_snr a b = Ok NaN /\
   (length a <= 1)%nat /\ (length b <= 1)%nat) \/
  (calculate_snr a b = Raise ValueError /\
   ((2 <= length a)%nat \/ (2 <= length b)%nat)).
Proof.
  intros [-> | ->].
  - destruct b as [|y [|z b]].
    + left. rewrite calculate_snr_nil. simpl. repeat split; lia.
    + left. unfold calculate_snr. simpl. rewrite mean_nil.
      simpl. repeat split; lia.
    + right. split; [reflexivity | simpl; lia].
  - destruct a as [|x [|z a]].
    + left. rewrite calculate_snr_nil. simpl. repeat split; lia.
    + left. unfold calculate_snr. simpl. rewrite mean_nil.
      rewrite mean_nonempty by done. simpl. repeat split; lia.
    + right. split; [reflexivity | simpl; lia].
Qed.

Lemma calculate_snr_empty_witness :
  (calculate_snr [] [] = Ok NaN /\
   (length (@nil R) <= 1)%nat /\ (length (@nil R) <= 1)%nat) \/
  (calculate_snr [] [] = Raise ValueError /\
   ((2 <= length (@nil R))%nat \/ (2 <= length (@nil R))%nat)).
Proof. apply calculate_snr_empty. by left. Defined.

(** ** C5: truncation to the common length *)

Section Alignment.

Context {A : Type}.
Implicit Types l k : list A.

Lemma slice_to_min l k :
  slice_to l (Z.min (len l) (len k))
  = take (Nat.min (length l) (length k)) l.
Proof.
  unfold slice_to, len. rewrite decide_False by lia.
  f_equal. lia.
Qed.

Lemma slice_to_min_r l k :
  slice_to k (Z.min (len l) (len k))
  = take (Nat.min (length l) (length k)) k.
Proof.
  unfold slice_to, len. rewrite decide_False by lia.
  f_equal. lia.
Qed.

End Alignment.

Lemma align_take (a b : ndarray) :
  align a b = (take (Nat.min (length a) (length b)) a,
               take (Nat.min (length a) (length b)) b).
Proof. unfold align. by rewrite slice_to_min, slice_to_min_r. Qed.

Lemma align_same_length (a b : ndarray) :
  length (align a b).1 = length (align a b).2.
Proof. rewrite align_take. simpl. rewrite !length_take. lia. Qed.

Lemma align_nonempty (a b : ndarray) :
  a <> [] -> b <> [] -> (align a b).1 <> [].
Proof.
  intros Ha Hb. rewrite align_take. by destruct a, b.
Qed.

(** C5: for [a] of length [m] and [b] of length [n], the truncation returns
    two sequences of length [min m n]; each is the prefix of that length of
    its input, sample for sample. *)
Theorem align_prefixes (a b : ndarray) :
  length (align a b).1 = Nat.min (length a) (length b) /\
  length (align a b).2 = Nat.min (length a) (length b) /\
  (align a b).1 `prefix_of` a /\
  (align a b).2 `prefix_of` b /\
  (forall i : nat, (i < Nat.min (length a) (length b))%nat ->
     (align a b).1 !! i = a !! i /\ (align a b).2 !! i = b !! i).
Proof.
  rewrite align_take. simpl. repeat split.
  - rewrite length_take. lia.
  - rewrite length_take. lia.
  - apply prefix_take.
  - apply prefix_take.
  - by apply lookup_take_lt.
  - by apply lookup_take_lt.
Qed.

Lemma align_prefixes_witness :
  (align [1; 2; 3; 4; 5] [6; 7; 8]).1 !! 2%nat = [1; 2; 3; 4; 5] !! 2%nat /\
  (align [1; 2; 3; 4; 5] [6; 7; 8]).2 !! 2%nat = [6; 7; 8] !! 2%nat.
Proof.
  apply (align_prefixes [1; 2; 3; 4; 5] [6; 7; 8]). simpl. lia.
Defined.

(** The scenario of the description: lengths five and three. *)
Example align_five_three :
  align [1; 2; 3; 4; 5] [6; 7; 8] = ([1; 2; 3], [6; 7; 8]).
Proof. reflexivity. Qed.

(** ** C7: values and labels of the bars *)

Lemma eqb_inf (v : npfloat) : Np.eqb v Np.inf = true <-> v = PosInf.
Proof. destruct v; simpl; split; intros H; done. Qed.

Lemma Rlog10_pow10 (n : nat) : Rlog10 (10 ^ n) = INR n.
Proof.
  unfold Rlog10. rewrite ln_pow by lra.
  assert (ln 10 <> 0) as H by (apply ln_neq_0; lra).
  by field.
Qed.

(** A measurement of exactly one hundred decibels: signal power [10^10],
    noise power 1. *)
Lemma calculate_snr_hundred :
  calculate_snr [100000] [99999] = Ok (Finite 100).
Proof.
  rewrite calculate_snr_cases by done.
  assert (mean_square_difference [100000] [99999] = 1) as Hn
    by (eval_means; lra).
  assert (mean_square [100000] = 10 ^ 10) as Hs by (eval_means; lra).
  unfold decibels. rewrite Hn, Hs. rewrite !decide_False by lra.
  replace (10 ^ 10 / 1) with (10 ^ 10) by lra.
  rewrite Rlog10_pow10. do 2 f_equal. simpl. lra.
Qed.

(** C7, as stated, fails: the placeholder is the number 100, which is
    also the value [calculate_snr] returns for the signals [[100000]] and
    [[99999]]; in a dataset holding that measurement and [np.inf] the two
    bars have the same height. *)
Lemma placeholder_equals_measurement :
  calculate_snr [100000] [99999] = Ok (Finite 100) /\
  calculate_snr [1] [1] = Ok PosInf /\
  visual_snr_values [Finite 100; PosInf] = [Finite 100; Finite 100].
Proof.
  split; [apply calculate_snr_hundred | split].
  - eval_snr.
  - reflexivity.
Qed.

Lemma visual_lookup (values : list npfloat) (i : nat) :
  visual_snr_values values !! i
  = (fun v => if Np.eqb v Np.inf then Finite 100 else v) <$> values !! i.
Proof. unfold visual_snr_values. apply list_lookup_fmap. Qed.

(** C7 (amended): the substitution replaces exactly the values equal to
    [np.inf] by the fixed number 100 and leaves every other value as it is;
    the label of a bar is the infinity glyph exactly for [np.inf] and the
    number otherwise.  The placeholder differs from the measurements only
    in a dataset that has no measurement of 100: there a bar has height 100
    exactly when its value is [np.inf]. *)
Theorem visual_snr_values_spec (values : list npfloat) :
  length (visual_snr_values values) = length values /\
  length (bar_labels values) = length values /\
  (forall (i : nat) (v : npfloat), values !! i = Some v ->
     (v = PosInf ->
        visual_snr_values values !! i = Some (Finite 100) /\
        text <$> bar_labels values !! i = Some InfinityGlyph) /\
     (v <> PosInf ->
        visual_snr_values values !! i = Some v /\
        text <$> bar_labels values !! i = Some (TwoDecimals v))) /\
  (Finite 100 ∉ values ->
     forall i : nat,
       visual_snr_values values !! i = Some (Finite 100)
       <-> values !! i = Some PosInf).
Proof.
  split; [|split; [|split]].
  - unfold visual_snr_values. by rewrite length_map.
  - unfold bar_labels. by rewrite length_map.
  - intros i v Hi. rewrite visual_lookup. unfold bar_labels.
    rewrite list_lookup_fmap, Hi. simpl. unfold label_of.
    split.
    + intros ->. done.
    + intros Hv. destruct (Np.eqb v Np.inf) eqn:E; [|done].
      by apply eqb_inf in E.
  - intros Hnot i. rewrite visual_lookup.
    destruct (values !! i) as [v|] eqn:Hi; simpl; [|done].
    destruct (Np.eqb v Np.inf) eqn:E.
    + apply eqb_inf in E as ->. done.
    + split; intros [= ->]; [|done].
      exfalso. apply Hnot. by eapply list_elem_of_lookup_2.
Qed.

Lemma visual_snr_values_spec_witness :
  (Finite 100 ∉ [Finite 6; PosInf; NegInf]) /\
  (visual_snr_values [Finite 6; PosInf; NegInf] !! 1%nat = Some (Finite 100)
   <-> [Finite 6; PosInf; NegInf] !! 1%nat = Some PosInf).
Proof.
  assert (Finite 100 ∉ [Finite 6; PosInf; NegInf]) as Hnot.
  { rewrite !not_elem_of_cons. repeat split; try discriminate.
    - intros [= H]. lra.
    - apply not_elem_of_nil. }
  split; [exact Hnot|].
  apply (visual_snr_values_spec [Finite 6; PosInf; NegInf]), Hnot.
Defined.

(** ** C4: the result lists of the loop *)

Lemma slice_to_nil {A} (stop : Z) : slice_to (@nil A) stop = [].
Proof. unfold slice_to. case_decide; apply take_nil. Qed.

(** C4, as stated, fails: every call of the loader succeeds, with a file of
    no samples, and the reference values of the four records are [nan]. *)
Lemma reference_snr_of_empty_files :
  match process_files load_nothing files initial with
  | Ok st => wav_snr_values st = [NaN; NaN; NaN; NaN]
  | Raise _ => False
  end.
Proof.
  unfold files, process_files, loop_body, load_nothing.
  cbn -[calculate_snr slice_to].
  rewrite !slice_to_nil, calculate_snr_nil. reflexivity.
Qed.

Section LoopProperties.

Variable load : string -> result (ndarray * Z).

Lemma calculate_snr_aligned (s s' : ndarray) :
  s <> [] -> s' <> [] ->
  exists v, calculate_snr (align s s').1 (align s s').2 = Ok v.
Proof.
  intros Hs Hs'. eexists.
  apply calculate_snr_cases;
    [apply align_same_length | by apply align_nonempty].
Qed.

Lemma loop_body_appends (file : file_entry) (st : dataset) :
  loads_signals load file ->
  exists v,
    compressed_snr_of load file = Ok v /\
    loop_body load file st =
      Ok {| compressed_snr_values := compressed_snr_values st ++ [v];
            wav_snr_values := wav_snr_values st ++ [Np.inf];
            algorithm_labels := algorithm_labels st ++ [algorithm file];
            file_sizes := file_sizes st ++ [size_mb file];
            durations := durations st ++ [IZR (duration_sec file) / 60];
            bit_rates := bit_rates st ++ [bitrate_kbps file] |}.
Proof.
  intros (s & s' & r & r' & Ho & Hc & Hs & Hs').
  destruct (calculate_snr_aligned s s' Hs Hs') as [v Hv].
  assert (calculate_snr (align s s').1 (align s s').1 = Ok Np.inf) as Hw.
  { pose proof (align_nonempty s s' Hs Hs') as Hne.
    rewrite calculate_snr_cases by done.
    by rewrite decide_True by (by apply mean_square_difference_same). }
  exists v. unfold compressed_snr_of, loop_body.
  rewrite Ho, Hc. cbn -[calculate_snr align].
  destruct (align s s') as [o c]. cbn -[calculate_snr] in *.
  by rewrite Hv, Hw.
Qed.

Lemma process_files_appends (fs : list file_entry) (st : dataset) :
  Forall (loads_signals load) fs ->
  exists (vs : list npfloat),
    Forall2 (fun file v => compressed_snr_of load file = Ok v) fs vs /\
    process_files load fs st =
      Ok {| compressed_snr_values := compressed_snr_values st ++ vs;
            wav_snr_values :=
              wav_snr_values st ++ replicate (length fs) Np.inf;
            algorithm_labels := algorithm_labels st ++ map algorithm fs;
            file_sizes := file_sizes st ++ map size_mb fs;
            durations :=
              durations st
              ++ map (fun file => IZR (duration_sec file) / 60) fs;
            bit_rates := bit_rates st ++ map bitrate_kbps fs |}.
Proof.
  intros Hall. revert st.
  induction Hall as [|file fs Hfile _ IH]; intros st.
  - exists []. split; [constructor|]. simpl.
    rewrite !app_nil_r. by destruct st.
  - destruct (loop_body_appends file st Hfile) as (v & Hv & Hbody).
    simpl. rewrite Hbody. simpl.
    destruct (IH {| compressed_snr_values := compressed_snr_values st ++ [v];
            wav_snr_values := wav_snr_values st ++ [Np.inf];
            algorithm_labels := algorithm_labels st ++ [algorithm file];
            file_sizes := file_sizes st ++ [size_mb file];
            durations := durations st ++ [IZR (duration_sec file) / 60];
            bit_rates := bit_rates st ++ [bitrate_kbps file] |})
      as (vs & Hvs & Hrun).
    exists (v :: vs). split; [by constructor|].
    rewrite Hrun. simpl. by rewrite <- !app_assoc.
Qed.

(** A file that does not load ends the run with the loader's
    exception. *)
Lemma process_files_load_error
    (file : file_entry) (rest : list file_entry) (st : dataset) (e : exn) :
  load (original file) = Raise e ->
  process_files load (file :: rest) st = Raise e.
Proof.
  intros H. simpl. unfold loop_body. by rewrite H.
Qed.

End LoopProperties.

(** C4 (amended): when for every entry of a catalogue of size [k] both
    files load and neither signal is empty, the loop ends without an
    exception and each of the six lists has [k] items, in the order of the
    catalogue: the SNR of the truncated pair, [np.inf] as the reference SNR,
    the algorithm label, the file size, the duration in minutes (seconds
    divided by 60) and the bit rate of the entry. *)
Theorem process_files_records
    (load : string -> result (ndarray * Z)) (catalog : list file_entry) :
  Forall (loads_signals load) catalog ->
  exists st : dataset,
    process_files load catalog initial = Ok st /\
    holds_records load catalog st /\
    length (compressed_snr_values st) = length catalog /\
    length (wav_snr_values st) = length catalog /\
    length (algorithm_labels st) = length catalog /\
    length (file_sizes st) = length catalog /\
    length (durations st) = length catalog /\
    length (bit_rates st) = length catalog.
Proof.
  intros Hall.
  destruct (process_files_appends load catalog initial Hall)
    as (vs & Hvs & Hrun).
  eexists. split; [exact Hrun|]. simpl.
  split; [by repeat split|].
  rewrite length_replicate, !length_map.
  by rewrite <- (Forall2_length _ _ _ Hvs).
Qed.

Lemma process_files_records_witness :
  exists st : dataset,
    process_files load_constant files initial = Ok st /\
    holds_records load_constant files st /\
    length (compressed_snr_values st) = length files /\
    length (wav_snr_values st) = length files /\
    length (algorithm_labels st) = length files /\
    length (file_sizes st) = length files /\
    length (durations st) = length files /\
    length (bit_rates st) = length files.
Proof.
  apply process_files_records.
  repeat constructor;
    by exists [1; -1], [1; -1], 44100%Z, 44100%Z.
Defined.

(** ** C8: calculate_snr has no effect on its arguments *)

Section HeapProperties.

Implicit Types h : gmap Heap.loc ndarray.
Implicit Types x y l : Heap.loc.

Lemma bind_ok {A B} (m : Heap.M A) (k : A -> Heap.M B) h (v : A) h' :
  m h = (Some (Ok v), h') -> (m ≫= k) h = k v h'.
Proof. intros H. unfold mbind, Heap.M_bind. by rewrite H. Qed.

Lemma bind_raise {A B} (m : Heap.M A) (k : A -> Heap.M B) h (e : exn) h' :
  m h = (Some (Raise e), h') -> (m ≫= k) h = (Some (Raise e), h').
Proof. intros H. unfold mbind, Heap.M_bind. by rewrite H. Qed.

Lemma fresh_unused h : h !! fresh (dom h) = None.
Proof. apply not_elem_of_dom, is_fresh. Qed.

Lemma alloc_extends h (a : ndarray) : h ⊆ <[fresh (dom h) := a]> h.
Proof. apply insert_subseteq, fresh_unused. Qed.

Lemma read_run h x (a : ndarray) :
  h !! x = Some a -> Heap.read x h = (Some (Ok a), h).
Proof. intros H. unfold Heap.read. by rewrite H. Qed.

Lemma square_run h x (a : ndarray) :
  h !! x = Some a ->
  Heap.square x h
  = (Some (Ok (fresh (dom h))), <[fresh (dom h) := Np.square a]> h).
Proof.
  intros H. unfold Heap.square.
  by rewrite (bind_ok _ _ _ _ _ (read_run h x a H)).
Qed.

Lemma mean_run h x (a : ndarray) :
  h !! x = Some a -> Heap.mean x h = (Some (Ok (Np.mean a)), h).
Proof.
  intros H. unfold Heap.mean.
  by rewrite (bind_ok _ _ _ _ _ (read_run h x a H)).
Qed.

Lemma subtract_run h x y (a b : ndarray) :
  h !! x = Some a -> h !! y = Some b ->
  Heap.subtract x y h =
    match Np.subtract a b with
    | Ok d => (Some (Ok (fresh (dom h))), <[fresh (dom h) := d]> h)
    | Raise e => (Some (Raise e), h)
    end.
Proof.
  intros Hx Hy. unfold Heap.subtract.
  rewrite (bind_ok _ _ _ _ _ (read_run h x a Hx)).
  rewrite (bind_ok _ _ _ _ _ (read_run h y b Hy)).
  destruct (Np.subtract a b) as [d|e].
  - by rewrite (bind_ok _ _ h d h).
  - by rewrite (bind_raise _ _ h e h).
Qed.

(** The heap-passing function computes what [calculate_snr] computes
    from the contents of its arguments, and only adds arrays. *)
Lemma calculate_snr_run h x y (a b : ndarray) :
  h !! x = Some a -> h !! y = Some b ->
  exists h',
    Heap.calculate_snr x y h = (Some (calculate_snr a b), h') /\ h ⊆ h'.
Proof.
  intros Hx Hy. unfold Heap.calculate_snr, calculate_snr.
  set (h1 := <[fresh (dom h) := Np.square a]> h).
  assert (h ⊆ h1) as H01 by apply alloc_extends.
  rewrite (bind_ok _ _ _ _ _ (square_run h x a Hx)). fold h1.
  assert (h1 !! fresh (dom h) = Some (Np.square a)) as Hsq
    by apply lookup_insert_eq.
  rewrite (bind_ok _ _ _ _ _ (mean_run h1 _ _ Hsq)).
  pose proof (subtract_run h1 x y a b
                (lookup_weaken _ _ _ _ Hx H01)
                (lookup_weaken _ _ _ _ Hy H01)) as Hsub.
  destruct (Np.subtract a b) as [d|e].
  - rewrite (bind_ok _ _ _ _ _ Hsub).
    set (h2 := <[fresh (dom h1) := d]> h1).
    assert (h1 ⊆ h2) as H12 by apply alloc_extends.
    assert (h2 !! fresh (dom h1) = Some d) as Hd by apply lookup_insert_eq.
    rewrite (bind_ok _ _ _ _ _ (square_run h2 _ _ Hd)).
    set (h3 := <[fresh (dom h2) := Np.square d]> h2).
    assert (h2 ⊆ h3) as H23 by apply alloc_extends.
    assert (h3 !! fresh (dom h2) = Some (Np.square d)) as Hsq'
      by apply lookup_insert_eq.
    rewrite (bind_ok _ _ _ _ _ (mean_run h3 _ _ Hsq')).
    exists h3. split.
    + simpl. by destruct (Np.eqb (Np.mean (Np.square d)) (Finite 0)).
    + by do 2 (etrans; [eassumption|]).
  - rewrite (bind_raise _ _ _ _ _ Hsub). by exists h1.
Qed.

End HeapProperties.

(** C8, as stated, fails: [calculate_snr] is not free of other effects.
    For the reference [[0]] and the test [[1]] the logarithm of line 11 is
    taken of zero and numpy emits the warning "divide by zero encountered
    in log10". *)
Lemma calculate_snr_warns :
  Warned.calculate_snr [0] [1] = (Ok NegInf, [DivideByZero]).
Proof.
  unfold Warned.calculate_snr, Warned.mean, Warned.div, Warned.log10,
    Warned.mul.
  rewrite subtract_same_length by done.
  rewrite !decide_False by done.
  cbn [zip_with Np.square map app].
  rewrite !mean_nonempty by done. cbn [Np.sum foldr length INR Np.eqb].
  rewrite bool_decide_eq_false_2 by lra.
  cbn [Np.div]. rewrite !decide_False by lra.
  replace ((0 * 0 + 0) / 1 / (((0 - 1) * (0 - 1) + 0) / 1)) with 0
    by (field; lra).
  cbn [Np.log10]. rewrite decide_False by lra.
  rewrite !decide_True by done.
  cbn [Np.mul]. rewrite decide_False by lra.
  by rewrite decide_True by lra.
Qed.

(** C8 (amended): the outcome of [calculate_snr] is a function of the
    contents of its two arguments alone: two calls on equal reference and
    test sequences, in whatever heaps and at whatever locations (the two
    arguments may be one array), have the same outcome; and after the call
    every array that existed before it, the two arguments among them, holds
    what it held.  (The call can emit warnings, see
    [calculate_snr_warns].) *)
Theorem calculate_snr_pure
    (h1 h2 : gmap Heap.loc ndarray) (x1 y1 x2 y2 : Heap.loc)
    (a b : ndarray) :
  h1 !! x1 = Some a -> h1 !! y1 = Some b ->
  h2 !! x2 = Some a -> h2 !! y2 = Some b ->
  (Heap.calculate_snr x1 y1 h1).1 = (Heap.calculate_snr x2 y2 h2).1 /\
  (Heap.calculate_snr x1 y1 h1).1 = Some (calculate_snr a b) /\
  (Heap.calculate_snr x1 y1 h1).2 !! x1 = Some a /\
  (Heap.calculate_snr x1 y1 h1).2 !! y1 = Some b /\
  h1 ⊆ (Heap.calculate_snr x1 y1 h1).2.
Proof.
  intros Hx1 Hy1 Hx2 Hy2.
  destruct (calculate_snr_run h1 x1 y1 a b Hx1 Hy1) as (h1' & -> & Hsub).
  destruct (calculate_snr_run h2 x2 y2 a b Hx2 Hy2) as (h2' & -> & _).
  simpl. repeat split; try done; by eapply lookup_weaken.
Qed.

Lemma calculate_snr_pure_witness :
  let p : Heap.loc := 1%positive in
  let q : Heap.loc := 2%positive in
  let r : Heap.loc := 3%positive in
  let h1 : gmap Heap.loc ndarray := {[ p := [1; 1] ]} in
  let h2 : gmap Heap.loc ndarray := {[ q := [1; 1]; r := [1; 1] ]} in
  (Heap.calculate_snr p p h1).1 = (Heap.calculate_snr q r h2).1 /\
  (Heap.calculate_snr p p h1).1 = Some (calculate_snr [1; 1] [1; 1]) /\
  (Heap.calculate_snr p p h1).2 !! p = Some [1; 1] /\
  (Heap.calculate_snr p p h1).2 !! p = Some [1; 1] /\
  h1 ⊆ (Heap.calculate_snr p p h1).2.
Proof.
  intros p q r h1 h2. apply calculate_snr_pure.
  - apply lookup_singleton_eq.
  - apply lookup_singleton_eq.
  - apply lookup_insert_eq.
  - unfold h2. rewrite lookup_insert_ne by done. apply lookup_singleton_eq.
Defined.

(** * Further properties of the calculator *)

Section Broadcasting.

Implicit Types a b : ndarray.

(** [calculate_snr] in terms of the outcome of the subtraction. *)
Lemma calculate_snr_subtract a b :
  calculate_snr a b =
    match Np.subtract a b with
    | Ok d =>
        Ok (if Np.eqb (Np.mean (Np.square d)) (Finite 0) then Np.inf
            else Np.mul (Finite 10)
                   (Np.log10 (Np.div (Np.mean (Np.square a))
                                     (Np.mean (Np.square d)))))
    | Raise e => Raise e
    end.
Proof.
  unfold calculate_snr. destruct (Np.subtract a b) as [d|e]; simpl; [|done].
  by destruct (Np.eqb _ _).
Qed.

Lemma subtract_raises a b :
  Np.subtract a b = Raise ValueError <->
  length a <> length b /\ length a <> 1%nat /\ length b <> 1%nat.
Proof.
  unfold Np.subtract. destruct (decide (length a = length b)) as [He|He].
  - split; [discriminate | by intros [? _]].
  - destruct a as [|x [|x' a]], b as [|y [|y' b]]; simpl in *;
      split; try discriminate; try done; try (intros (_ & ? & ?); done).
Qed.

Lemma subtract_ok_or_value_error a b :
  Np.subtract a b = Raise ValueError \/ exists d, Np.subtract a b = Ok d.
Proof.
  unfold Np.subtract. destruct (decide (length a = length b)); [eauto|].
  destruct a as [|x [|x' a]], b as [|y [|y' b]]; eauto.
Qed.

Lemma zip_minus_replicate_l (x : R) b :
  zip_with Rminus (replicate (length b) x) b = map (fun y => x - y) b.
Proof. induction b as [|y b IH]; simpl; [done | by rewrite IH]. Qed.

Lemma zip_minus_replicate_r a (y : R) :
  zip_with Rminus a (replicate (length a) y) = map (fun x => x - y) a.
Proof. induction a as [|x a IH]; simpl; [done | by rewrite IH]. Qed.

Lemma subtract_broadcast_l (x : R) b :
  Np.subtract [x] b = Np.subtract (replicate (length b) x) b.
Proof.
  rewrite (subtract_same_length (replicate _ _) b)
    by (by rewrite length_replicate).
  rewrite zip_minus_replicate_l. unfold Np.subtract.
  destruct (decide (length [x] = length b)) as [He|He]; [|done].
  destruct b as [|y [|y' b]]; simpl in *; done.
Qed.

Lemma subtract_broadcast_r a (y : R) :
  Np.subtract a [y] = Np.subtract a (replicate (length a) y).
Proof.
  rewrite (subtract_same_length a (replicate _ _))
    by (by rewrite length_replicate).
  rewrite zip_minus_replicate_r. unfold Np.subtract.
  destruct (decide (length a = length [y])) as [He|He].
  - destruct a as [|x [|x' a]]; simpl in *; done.
  - destruct a as [|x [|x' a]]; simpl in *; done.
Qed.

Lemma sum_square_replicate (n : nat) (x : R) :
  Np.sum (Np.square (replicate n x)) = INR n * (x * x).
Proof.
  induction n as [|n IH]; [simpl; lra|].
  rewrite S_INR. cbn [replicate Np.square map Np.sum foldr].
  unfold Np.sum, Np.square in IH. rewrite IH. lra.
Qed.

Lemma mean_square_replicate (n : nat) (x : R) :
  n <> 0%nat ->
  Np.mean (Np.square (replicate n x)) = Np.mean (Np.square [x]).
Proof.
  intros Hn.
  rewrite !mean_nonempty by (by destruct n).
  rewrite sum_square_replicate, length_square, length_replicate.
  f_equal. simpl.
  assert (0 < INR n) by (apply lt_0_INR; lia). field. lra.
Qed.

Lemma calculate_snr_broadcast_l (x : R) b :
  calculate_snr [x] b = calculate_snr (replicate (length b) x) b.
Proof.
  rewrite !calculate_snr_subtract, <- subtract_broadcast_l.
  destruct b as [|y b].
  - simpl. rewrite mean_nil. simpl.
    by destruct (Np.mean [x * x]).
  - by rewrite mean_square_replicate.
Qed.

Lemma calculate_snr_broadcast_r a (y : R) :
  calculate_snr a [y] = calculate_snr a (replicate (length a) y).
Proof. by rewrite !calculate_snr_subtract, <- subtract_broadcast_r. Qed.

End Broadcasting.

(** X1: [calculate_snr] raises an exception exactly when the two lengths
    differ and neither is one, and the exception is numpy's [ValueError];
    on every other pair of arrays it returns a value. *)
Theorem calculate_snr_value_error (a b : ndarray) :
  (calculate_snr a b = Raise ValueError <->
   length a <> length b /\ length a <> 1%nat /\ length b <> 1%nat) /\
  (calculate_snr a b = Raise ValueError \/
   exists v : npfloat, calculate_snr a b = Ok v).
Proof.
  rewrite calculate_snr_subtract. split.
  - rewrite <- subtract_raises.
    destruct (subtract_ok_or_value_error a b) as [H|[d H]]; rewrite H.
    + done.
    + split; discriminate.
  - destruct (subtract_ok_or_value_error a b) as [H|[d H]]; rewrite H;
      eauto.
Qed.

(** X2: over exact arithmetic, an operand of one sample is stretched over
    the other operand without an error: the result is that of comparing
    with the constant signal of the other's length. *)
Theorem calculate_snr_broadcast (x : R) (a : ndarray) :
  calculate_snr [x] a = calculate_snr (replicate (length a) x) a /\
  calculate_snr a [x] = calculate_snr a (replicate (length a) x).
Proof.
  split; [apply calculate_snr_broadcast_l | apply calculate_snr_broadcast_r].
Qed.

Section NotANumber.

Implicit Types a b : ndarray.

Lemma calculate_snr_same_length_not_nan a b :
  length a = length b -> a <> [] -> calculate_snr a b <> Ok NaN.
Proof.
  intros Hlen Ha. rewrite calculate_snr_cases by done.
  repeat case_decide; discriminate.
Qed.

Lemma calculate_snr_nonempty_not_nan a b :
  a <> [] -> b <> [] -> calculate_snr a b <> Ok NaN.
Proof.
  intros Ha Hb.
  destruct (decide (length a = length b)) as [He|He];
    [by apply calculate_snr_same_length_not_nan|].
  destruct a as [|x [|x' a]]; [done| |].
  - rewrite calculate_snr_broadcast_l.
    apply calculate_snr_same_length_not_nan;
      [by rewrite length_replicate | by destruct b].
  - destruct b as [|y [|y' b]]; [done| |].
    + rewrite calculate_snr_broadcast_r.
      apply calculate_snr_same_length_not_nan;
        [by rewrite length_replicate | done].
    + rewrite calculate_snr_subtract. unfold Np.subtract.
      rewrite decide_False by done. discriminate.
Qed.

Lemma calculate_snr_nil_l b :
  calculate_snr [] b =
    if decide (length b <= 1)%nat then Ok NaN else Raise ValueError.
Proof.
  destruct b as [|y [|y' b]].
  - by rewrite calculate_snr_nil.
  - unfold calculate_snr. simpl. rewrite mean_nil. done.
  - rewrite decide_False by (simpl; lia). done.
Qed.

Lemma calculate_snr_nil_r a :
  calculate_snr a [] =
    if decide (length a <= 1)%nat then Ok NaN else Raise ValueError.
Proof.
  destruct a as [|x [|x' a]].
  - by rewrite calculate_snr_nil.
  - unfold calculate_snr. simpl. rewrite mean_nil.
    by rewrite mean_nonempty by done.
  - rewrite decide_False by (simpl; lia). done.
Qed.

End NotANumber.

(** X3: over exact arithmetic, [calculate_snr] returns [nan] exactly when
    one of its arguments is empty and the other has at most one sample; two
    non-empty signals never give [nan]. *)
Theorem calculate_snr_nan_iff (a b : ndarray) :
  calculate_snr a b = Ok NaN <->
  (a = [] /\ (length b <= 1)%nat) \/ (b = [] /\ (length a <= 1)%nat).
Proof.
  split.
  - intros H. destruct a as [|x a].
    + left. split; [done|]. rewrite calculate_snr_nil_l in H.
      by case_decide.
    + destruct b as [|y b].
      * right. split; [done|]. rewrite calculate_snr_nil_r in H.
        by case_decide.
      * by apply calculate_snr_nonempty_not_nan in H.
  - intros [[-> Hb] | [-> Ha]].
    + rewrite calculate_snr_nil_l. by rewrite decide_True.
    + rewrite calculate_snr_nil_r. by rewrite decide_True.
Qed.

(** ** The sign and the order of decibel values *)

Section Logarithm.

Lemma ln_10_pos : 0 < ln 10.
Proof. rewrite <- ln_1. apply ln_increasing; lra. Qed.

Lemma Rlog10_1 : Rlog10 1 = 0.
Proof. unfold Rlog10. rewrite ln_1. unfold Rdiv. lra. Qed.

Lemma Rlog10_increasing (x y : R) :
  0 < x -> x < y -> Rlog10 x < Rlog10 y.
Proof.
  intros Hx Hxy. unfold Rlog10, Rdiv.
  apply Rmult_lt_compat_r; [apply Rinv_0_lt_compat, ln_10_pos|].
  by apply ln_increasing.
Qed.

Lemma Rlog10_lt_iff (x y : R) :
  0 < x -> 0 < y -> Rlog10 x < Rlog10 y <-> x < y.
Proof.
  intros Hx Hy. split; [|by apply Rlog10_increasing].
  intros H. destruct (Rtotal_order x y) as [Hlt|[->|Hgt]]; [done|lra|].
  pose proof (Rlog10_increasing y x Hy Hgt). lra.
Qed.

Lemma Rlog10_eq_iff (x y : R) :
  0 < x -> 0 < y -> Rlog10 x = Rlog10 y <-> x = y.
Proof.
  intros Hx Hy. split; [|by intros ->].
  intros H. destruct (Rtotal_order x y) as [Hlt|[->|Hgt]]; [|done|].
  - pose proof (Rlog10_increasing x y Hx Hlt). lra.
  - pose proof (Rlog10_increasing y x Hy Hgt). lra.
Qed.

End Logarithm.

Section FiniteValues.

Implicit Types a b : ndarray.

(** A finite result is the decibel value of two positive powers. *)
Lemma calculate_snr_finite a b (v : R) :
  length a = length b -> a <> [] ->
  calculate_snr a b = Ok (Finite v) ->
  v = decibels a b /\ 0 < mean_square a /\ 0 < mean_square_difference a b.
Proof.
  intros Hlen Ha. rewrite calculate_snr_cases by done.
  pose proof (mean_square_nonneg a Ha).
  pose proof (mean_square_difference_nonneg a b Hlen Ha).
  repeat case_decide; intros [= <-]. repeat split; lra.
Qed.

End FiniteValues.

(** X4: a finite result of [calculate_snr] on two arrays of one positive
    length is positive exactly when the signal power exceeds the noise
    power, negative exactly when the noise power exceeds the signal power,
    and zero exactly when the two are equal. *)
Theorem calculate_snr_sign (a b : ndarray) (v : R) :
  length a = length b -> a <> [] ->
  calculate_snr a b = Ok (Finite v) ->
  (0 < v <-> mean_square_difference a b < mean_square a) /\
  (v < 0 <-> mean_square a < mean_square_difference a b) /\
  (v = 0 <-> mean_square a = mean_square_difference a b).
Proof.
  intros Hlen Ha Hv.
  destruct (calculate_snr_finite a b v Hlen Ha Hv) as (-> & Hs & Hn).
  unfold decibels.
  set (s := mean_square a) in *. set (n := mean_square_difference a b) in *.
  assert (0 < s / n) as Hq by (by apply Rdiv_lt_0_compat).
  assert (s / n < 1 <-> s < n) as Hlt.
  { split; intros H.
    - apply (Rmult_lt_compat_r n) in H; [|done].
      unfold Rdiv in H. rewrite Rmult_assoc, Rinv_l in H by lra. lra.
    - apply (Rmult_lt_reg_r n); [done|].
      unfold Rdiv. rewrite Rmult_assoc, Rinv_l by lra. lra. }
  assert (1 < s / n <-> n < s) as Hgt.
  { split; intros H.
    - apply (Rmult_lt_compat_r n) in H; [|done].
      unfold Rdiv in H. rewrite Rmult_assoc, Rinv_l in H by lra. lra.
    - apply (Rmult_lt_reg_r n); [done|].
      unfold Rdiv. rewrite Rmult_assoc, Rinv_l by lra. lra. }
  assert (s / n = 1 <-> s = n) as Heq.
  { split; intros H.
    - apply (Rmult_eq_compat_r n) in H.
      unfold Rdiv in H. rewrite Rmult_assoc, Rinv_l in H by lra. lra.
    - rewrite H. unfold Rdiv. rewrite Rinv_r by lra. done. }
  pose proof (Rlog10_lt_iff 1 (s / n) Rlt_0_1 Hq) as H1.
  pose proof (Rlog10_lt_iff (s / n) 1 Hq Rlt_0_1) as H2.
  pose proof (Rlog10_eq_iff (s / n) 1 Hq Rlt_0_1) as H3.
  rewrite Rlog10_1 in H1, H2, H3.
  rewrite <- Hgt, <- Hlt, <- Heq, <- H1, <- H2, <- H3.
  repeat split; intros; lra.
Qed.

Lemma calculate_snr_sign_witness :
  calculate_snr [1; -1; 1; -1] [1/2; -1/2; 1/2; -1/2]
  = Ok (Finite (10 * Rlog10 4)) /\
  0 < 10 * Rlog10 4.
Proof.
  assert (calculate_snr [1; -1; 1; -1] [1/2; -1/2; 1/2; -1/2]
          = Ok (Finite (10 * Rlog10 4))) as H.
  { rewrite calculate_snr_cases by done. eval_means.
    rewrite !decide_False by lra. do 4 f_equal. lra. }
  split; [exact H|].
  destruct (calculate_snr_sign [1; -1; 1; -1] [1/2; -1/2; 1/2; -1/2]
              (10 * Rlog10 4)) as (Hpos & _);
    [reflexivity | discriminate | exact H |].
  apply Hpos. eval_means. lra.
Defined.

Section SilentTest.

Implicit Types a b : ndarray.

Lemma zip_minus_zeros a b :
  length a = length b -> Forall (fun v => v = 0) b ->
  zip_with Rminus a b = a.
Proof.
  revert b. induction a as [|x a IH]; intros [|y b] Hlen Hz;
    simpl in *; try done.
  inversion Hz as [|? ? Hy Hb]; subst. f_equal; [lra|].
  apply IH; [lia | done].
Qed.

Lemma mean_square_difference_zeros a b :
  length a = length b -> Forall (fun v => v = 0) b ->
  mean_square_difference a b = mean_square a.
Proof.
  intros Hlen Hz.
  by rewrite mean_square_difference_eq, mean_square_eq, zip_minus_zeros.
Qed.

End SilentTest.

(** X5: a test signal of silence, against a reference of the same length
    that has a non-zero sample, measures exactly zero decibels: the noise is
    the reference itself. *)
Theorem calculate_snr_silent_test (a b : ndarray) :
  length a = length b ->
  Forall (fun v => v = 0) b ->
  (exists v, v ∈ a /\ v <> 0) ->
  calculate_snr a b = Ok (Finite 0).
Proof.
  intros Hlen Hz (v & Hv & Hv0).
  assert (a <> []) as Ha by (intros ->; by apply not_elem_of_nil in Hv).
  assert (mean_square a <> 0) as Hs.
  { rewrite mean_square_zero by done. intros Hall.
    rewrite Forall_forall in Hall. by apply Hv0, Hall. }
  rewrite calculate_snr_cases by done. unfold decibels.
  rewrite mean_square_difference_zeros by done.
  rewrite !decide_False by done. do 2 f_equal.
  unfold Rdiv. rewrite Rinv_r by done. rewrite Rlog10_1. lra.
Qed.

Lemma calculate_snr_silent_test_witness :
  calculate_snr [1; -1] [0; 0] = Ok (Finite 0).
Proof.
  apply calculate_snr_silent_test.
  - reflexivity.
  - by repeat constructor.
  - exists 1. split; [apply list_elem_of_here | lra].
Defined.

(** X6: against one reference, of two test signals with finite results the
    one with the smaller noise power has the larger decibel value. *)
Theorem calculate_snr_less_noise (a b b' : ndarray) (v v' : R) :
  length a = length b -> length a = length b' -> a <> [] ->
  calculate_snr a b = Ok (Finite v) ->
  calculate_snr a b' = Ok (Finite v') ->
  mean_square_difference a b < mean_square_difference a b' <-> v' < v.
Proof.
  intros Hlen Hlen' Ha Hv Hv'.
  destruct (calculate_snr_finite a b v Hlen Ha Hv) as (-> & Hs & Hn).
  destruct (calculate_snr_finite a b' v' Hlen' Ha Hv') as (-> & _ & Hn').
  unfold decibels.
  set (s := mean_square a) in *.
  set (n := mean_square_difference a b) in *.
  set (n' := mean_square_difference a b') in *.
  assert (0 < s / n) as Hq by (by apply Rdiv_lt_0_compat).
  assert (0 < s / n') as Hq' by (by apply Rdiv_lt_0_compat).
  pose proof (Rlog10_lt_iff (s / n') (s / n) Hq' Hq) as Hlog.
  assert (s / n' < s / n <-> n < n') as Hdiv.
  { split; intros H.
    - destruct (Rlt_dec n n') as [|Hge]; [done|]. exfalso.
      assert (/ n <= / n') as Hinv.
      { destruct (Req_dec n n') as [->|Hne]; [lra|].
        left. apply Rinv_lt_contravar; [nra | lra]. }
      unfold Rdiv in H. nra.
    - unfold Rdiv. apply Rmult_lt_compat_l; [done|].
      apply Rinv_lt_contravar; [nra | done]. }
  rewrite <- Hdiv, <- Hlog. split; intros; lra.
Qed.

Lemma calculate_snr_less_noise_witness :
  mean_square_difference [1] [1/2] < mean_square_difference [1] [0]
  <-> 10 * Rlog10 1 < 10 * Rlog10 4.
Proof.
  apply (calculate_snr_less_noise [1] [1/2] [0]).
  - reflexivity.
  - reflexivity.
  - discriminate.
  - rewrite calculate_snr_cases by done. eval_means.
    rewrite !decide_False by lra. do 4 f_equal. lra.
  - rewrite calculate_snr_cases by done. eval_means.
    rewrite !decide_False by lra. do 4 f_equal. lra.
Defined.

(** ** Reordering the samples *)

Section Reordering.

Lemma sum_permutation (l l' : list R) :
  l ≡ₚ l' -> foldr Rplus 0 l = foldr Rplus 0 l'.
Proof.
  induction 1 as [|x l l' _ IH|x y l|l l' l'' _ IH _ IH']; simpl.
  - done.
  - by rewrite IH.
  - lra.
  - by rewrite IH.
Qed.

Lemma real_mean_permutation (l l' : list R) :
  l ≡ₚ l' -> real_mean l = real_mean l'.
Proof.
  intros H. unfold real_mean.
  by rewrite (sum_permutation l l' H), (Permutation_length H).
Qed.

Lemma mean_square_zip (a b : ndarray) :
  length a = length b ->
  mean_square a = real_mean ((fun p => p.1 ^ 2) <$> zip a b).
Proof.
  intros Hlen. unfold mean_square.
  rewrite <- (fst_zip a b) at 1 by lia.
  by rewrite <- list_fmap_compose.
Qed.

Lemma mean_square_difference_zip (a b : ndarray) :
  mean_square_difference a b
  = real_mean ((fun p => (p.1 - p.2) ^ 2) <$> zip a b).
Proof.
  unfold mean_square_difference. rewrite zip_with_zip.
  f_equal. apply list_fmap_ext. by intros i [x y] _.
Qed.

Lemma zip_nil_same_length (a b : ndarray) :
  length a = length b -> zip a b = [] -> a = [] /\ b = [].
Proof. by destruct a, b. Qed.

End Reordering.

(** X7: the result does not depend on the order of the samples: when the
    pairs (reference sample, test sample) of two comparisons are the same
    up to reordering, [calculate_snr] returns the same value for both. *)
Theorem calculate_snr_permutation (a b a' b' : ndarray) :
  length a = length b -> length a' = length b' ->
  zip a b ≡ₚ zip a' b' ->
  calculate_snr a b = calculate_snr a' b'.
Proof.
  intros Hlen Hlen' Hperm.
  destruct (decide (a = [])) as [->|Ha].
  - destruct b; [|done]. simpl in Hperm.
    apply Permutation_nil_l in Hperm. symmetry in Hperm.
    by apply zip_nil_same_length in Hperm as [-> ->].
  - assert (a' <> []) as Ha'.
    { intros ->. destruct b'; [|done]. simpl in Hperm.
      apply Permutation_nil_r in Hperm.
      by apply zip_nil_same_length in Hperm as [-> _]. }
    rewrite !calculate_snr_cases by done. unfold decibels.
    rewrite (mean_square_zip a b), (mean_square_zip a' b') by done.
    rewrite !mean_square_difference_zip.
    rewrite (real_mean_permutation _ _
               (fmap_Permutation (fun p => p.1 ^ 2) _ _ Hperm)).
    by rewrite (real_mean_permutation _ _
               (fmap_Permutation (fun p => (p.1 - p.2) ^ 2) _ _ Hperm)).
Qed.

Lemma calculate_snr_permutation_witness :
  calculate_snr [1; 2; 3] [4; 5; 6] = calculate_snr [3; 1; 2] [6; 4; 5].
Proof.
  apply calculate_snr_permutation; [reflexivity | reflexivity |].
  simpl. etrans; [|apply Permutation_swap].
  apply Permutation_skip, Permutation_swap.
Defined.

(** * Further properties of the truncation *)

(** X8: the shorter of the two signals is returned whole and the other is
    cut to its length, whichever argument it is. *)
Theorem align_shorter_whole (a b : ndarray) :
  (length a <= length b)%nat ->
  align a b = (a, take (length a) b) /\
  align b a = (take (length a) b, a).
Proof.
  intros Hle. rewrite !align_take.
  rewrite Nat.min_l, Nat.min_r by done.
  by rewrite take_ge by done.
Qed.

Lemma align_shorter_whole_witness :
  align [6; 7; 8] [1; 2; 3; 4; 5] = ([6; 7; 8], take 3 [1; 2; 3; 4; 5]) /\
  align [1; 2; 3; 4; 5] [6; 7; 8] = (take 3 [1; 2; 3; 4; 5], [6; 7; 8]).
Proof.
  apply (align_shorter_whole [6; 7; 8] [1; 2; 3; 4; 5]). simpl. lia.
Defined.

(** X9: truncating again changes nothing: the two signals returned by the
    truncation are returned as they are by a second truncation. *)
Theorem align_idempotent (a b : ndarray) :
  align (align a b).1 (align a b).2 = align a b.
Proof.
  rewrite (align_take a b). cbn [fst snd].
  rewrite align_take, !length_take, !take_take.
  f_equal; f_equal; lia.
Qed.

(** X10: over exact arithmetic, for two non-empty signals the value
    computed after truncation is [np.inf] exactly when the signals agree on
    their common length; samples of the longer signal past that length do
    not count. *)
Theorem calculate_snr_align_inf (a b : ndarray) :
  a <> [] -> b <> [] ->
  calculate_snr (align a b).1 (align a b).2 = Ok Np.inf <->
  take (Nat.min (length a) (length b)) a
  = take (Nat.min (length a) (length b)) b.
Proof.
  intros Ha Hb.
  pose proof (align_same_length a b) as Hlen.
  pose proof (align_nonempty a b Ha Hb) as Hne.
  rewrite align_take in Hlen, Hne |- *. cbn [fst snd] in *.
  rewrite calculate_snr_cases by done.
  rewrite <- (mean_square_difference_zero _ _ Hlen Hne). unfold Np.inf.
  destruct (decide (mean_square_difference _ _ = 0)) as [Hz|Hz].
  - done.
  - split; [|done]. destruct (decide (mean_square _ = 0)); discriminate.
Qed.

Lemma calculate_snr_align_inf_witness :
  calculate_snr (align [1; 2] [1; 2; 9]).1 (align [1; 2] [1; 2; 9]).2
  = Ok Np.inf.
Proof.
  apply calculate_snr_align_inf; [discriminate | discriminate | reflexivity].
Defined.

(** * Further properties of the loop *)

Section LoopOutcomes.

Variable load : string -> result (ndarray * Z).

Lemma calculate_snr_same_length_ok (a b : ndarray) :
  length a = length b -> exists v, calculate_snr a b = Ok v.
Proof.
  intros Hlen. rewrite calculate_snr_subtract.
  rewrite subtract_same_length by done. eauto.
Qed.

Lemma align_nil (a b : ndarray) :
  a = [] \/ b = [] -> align a b = ([], []).
Proof.
  intros [-> | ->]; rewrite align_take; simpl.
  - done.
  - rewrite Nat.min_0_r. by rewrite !take_0.
Qed.

(** One iteration on an entry whose two files load. *)
Lemma loop_body_loads (file : file_entry) (st : dataset)
    (s s' : ndarray) (r r' : Z) :
  load (original file) = Ok (s, r) ->
  load (compressed file) = Ok (s', r') ->
  exists v w : npfloat,
    loop_body load file st =
      Ok {| compressed_snr_values := compressed_snr_values st ++ [v];
            wav_snr_values := wav_snr_values st ++ [w];
            algorithm_labels := algorithm_labels st ++ [algorithm file];
            file_sizes := file_sizes st ++ [size_mb file];
            durations := durations st ++ [IZR (duration_sec file) / 60];
            bit_rates := bit_rates st ++ [bitrate_kbps file] |} /\
    (s <> [] /\ s' <> [] -> w = PosInf) /\
    (s = [] \/ s' = [] -> w = NaN /\ v = NaN).
Proof.
  intros Ho Hc.
  destruct (calculate_snr_same_length_ok _ _ (align_same_length s s'))
    as [v Hv].
  destruct (calculate_snr_same_length_ok (align s s').1 (align s s').1
              eq_refl) as [w Hw].
  exists v, w. split; [|split].
  - unfold loop_body. rewrite Ho, Hc. cbn -[calculate_snr align].
    destruct (align s s') as [o c]. cbn -[calculate_snr] in *.
    by rewrite Hv, Hw.
  - intros [Hs Hs']. pose proof (align_nonempty s s' Hs Hs') as Hne.
    rewrite calculate_snr_cases in Hw by done.
    rewrite decide_True in Hw by (by apply mean_square_difference_same).
    by injection Hw.
  - intros Hempty. rewrite (align_nil s s' Hempty) in Hv, Hw.
    cbn [fst snd] in *. rewrite calculate_snr_nil in Hv, Hw.
    split; congruence.
Qed.

(** Whatever one iteration does, when it ends normally it has added one
    item to each list. *)
Lemma loop_body_shape (file : file_entry) (st st' : dataset) :
  loop_body load file st = Ok st' ->
  exists v w : npfloat,
    st' = {| compressed_snr_values := compressed_snr_values st ++ [v];
             wav_snr_values := wav_snr_values st ++ [w];
             algorithm_labels := algorithm_labels st ++ [algorithm file];
             file_sizes := file_sizes st ++ [size_mb file];
             durations := durations st ++ [IZR (duration_sec file) / 60];
             bit_rates := bit_rates st ++ [bitrate_kbps file] |}.
Proof.
  intros H.
  destruct (load (original file)) as [[s r]|e] eqn:Ho;
    [|unfold loop_body in H; rewrite Ho in H; by cbn in H].
  destruct (load (compressed file)) as [[s' r']|e] eqn:Hc;
    [|unfold loop_body in H; rewrite Ho, Hc in H; by cbn in H].
  destruct (loop_body_loads file st s s' r r' Ho Hc) as (v & w & Hb & _).
  rewrite Hb in H. injection H as <-. eauto.
Qed.

Lemma loop_body_raises (file : file_entry) (st : dataset) (e : exn) :
  loop_body load file st = Raise e ->
  load (original file) = Raise e \/ load (compressed file) = Raise e.
Proof.
  intros H.
  destruct (load (original file)) as [[s r]|e'] eqn:Ho.
  - destruct (load (compressed file)) as [[s' r']|e'] eqn:Hc.
    + destruct (loop_body_loads file st s s' r r' Ho Hc)
        as (v & w & Hb & _). by rewrite Hb in H.
    + right. unfold loop_body in H. rewrite Ho, Hc in H. cbn in H.
      congruence.
  - left. unfold loop_body in H. rewrite Ho in H. cbn in H. congruence.
Qed.

Lemma loop_body_ok_loads (file : file_entry) (st st' : dataset) :
  loop_body load file st = Ok st' -> loads load file.
Proof.
  intros H. unfold loop_body in H.
  destruct (load (original file)) as [[s r]|e] eqn:Ho; [|by cbn in H].
  destruct (load (compressed file)) as [[s' r']|e] eqn:Hc; [|by cbn in H].
  by exists s, s', r, r'.
Qed.

End LoopOutcomes.

(** X11: the loop can only end with an exception of the loader:
    [calculate_snr] never raises on the truncated signals.  The exception
    is that of the first entry with a file that does not load, and every
    entry before it has loaded. *)
Theorem process_files_raises
    (load : string -> result (ndarray * Z))
    (fs : list file_entry) (st : dataset) (e : exn) :
  process_files load fs st = Raise e ->
  exists (pre : list file_entry) (file : file_entry)
         (post : list file_entry),
    fs = pre ++ file :: post /\
    Forall (loads load) pre /\
    (load (original file) = Raise e \/ load (compressed file) = Raise e).
Proof.
  revert st. induction fs as [|file fs IH]; intros st H; [done|].
  simpl in H.
  destruct (loop_body load file st) as [st1|e1] eqn:Hb; simpl in H.
  - destruct (IH st1 H) as (pre & file' & post & -> & Hpre & Hfile).
    exists (file :: pre), file', post. split; [done|]. split; [|done].
    constructor; [|done]. by eapply loop_body_ok_loads.
  - injection H as ->. exists [], file, fs. split; [done|].
    split; [constructor|]. by eapply loop_body_raises.
Qed.

Lemma process_files_raises_witness :
  exists (pre : list file_entry) (file : file_entry)
         (post : list file_entry),
    files = pre ++ file :: post /\
    Forall (loads load_fails) pre /\
    (load_fails (original file) = Raise (LoadError "elliot-og.wav") \/
     load_fails (compressed file) = Raise (LoadError "elliot-og.wav")).
Proof.
  apply (process_files_raises load_fails files initial). reflexivity.
Defined.

Section LoopRuns.

Variable load : string -> result (ndarray * Z).

Lemma loop_body_values (file : file_entry) (st : dataset) :
  loads load file ->
  exists v w : npfloat,
    loop_body load file st =
      Ok {| compressed_snr_values := compressed_snr_values st ++ [v];
            wav_snr_values := wav_snr_values st ++ [w];
            algorithm_labels := algorithm_labels st ++ [algorithm file];
            file_sizes := file_sizes st ++ [size_mb file];
            durations := durations st ++ [IZR (duration_sec file) / 60];
            bit_rates := bit_rates st ++ [bitrate_kbps file] |} /\
    reference_is load file w /\ compressed_is load file v.
Proof.
  intros (s & s' & r & r' & Ho & Hc).
  destruct (loop_body_loads load file st s s' r r' Ho Hc)
    as (v & w & Hb & Hfull & Hempty).
  exists v, w. split; [done|].
  assert (loads_signals load file <-> s <> [] /\ s' <> []) as Hiff.
  { split.
    - intros (t & t' & q & q' & Ho' & Hc' & Ht & Ht').
      rewrite Ho in Ho'. rewrite Hc in Hc'.
      injection Ho' as <- <-. injection Hc' as <- <-. done.
    - intros [Hs Hs']. by exists s, s', r, r'. }
  assert (~ loads_signals load file -> s = [] \/ s' = []) as Hno.
  { intros Hn. destruct s; [by left|]. destruct s'; [by right|].
    exfalso. apply Hn, Hiff. done. }
  repeat split.
  - intros H. by apply Hfull, Hiff.
  - intros H. by apply Hempty, Hno.
  - intros H. by apply Hempty, Hno.
Qed.

Lemma process_files_values (fs : list file_entry) (st : dataset) :
  Forall (loads load) fs ->
  exists vs ws : list npfloat,
    process_files load fs st =
      Ok {| compressed_snr_values := compressed_snr_values st ++ vs;
            wav_snr_values := wav_snr_values st ++ ws;
            algorithm_labels := algorithm_labels st ++ map algorithm fs;
            file_sizes := file_sizes st ++ map size_mb fs;
            durations :=
              durations st
              ++ map (fun file => IZR (duration_sec file) / 60) fs;
            bit_rates := bit_rates st ++ map bitrate_kbps fs |} /\
    Forall2 (reference_is load) fs ws /\
    Forall2 (compressed_is load) fs vs.
Proof.
  intros Hall. revert st.
  induction Hall as [|file fs Hfile _ IH]; intros st.
  - exists [], []. split; [|by split; constructor].
    simpl. rewrite !app_nil_r. by destruct st.
  - destruct (loop_body_values file st Hfile) as (v & w & Hb & Hw & Hv).
    simpl. rewrite Hb. simpl.
    match goal with
    | |- context [process_files load fs ?st1] =>
        destruct (IH st1) as (vs & ws & Hrun & Hws & Hvs)
    end.
    exists (v :: vs), (w :: ws). split; [|by split; constructor].
    rewrite Hrun. simpl. by rewrite <- !app_assoc.
Qed.

Lemma process_files_shape (fs : list file_entry) (st st' : dataset) :
  process_files load fs st = Ok st' ->
  exists vs ws : list npfloat,
    length vs = length fs /\ length ws = length fs /\
    st' = {| compressed_snr_values := compressed_snr_values st ++ vs;
             wav_snr_values := wav_snr_values st ++ ws;
             algorithm_labels := algorithm_labels st ++ map algorithm fs;
             file_sizes := file_sizes st ++ map size_mb fs;
             durations :=
               durations st
               ++ map (fun file => IZR (duration_sec file) / 60) fs;
             bit_rates := bit_rates st ++ map bitrate_kbps fs |}.
Proof.
  revert st. induction fs as [|file fs IH]; intros st H.
  - injection H as <-. exists [], []. simpl. rewrite !app_nil_r.
    by destruct st.
  - simpl in H. destruct (loop_body load file st) as [st1|e] eqn:Hb;
      [|done]. simpl in H.
    destruct (loop_body_shape load file st st1 Hb) as (v & w & ->).
    destruct (IH _ H) as (vs & ws & Hvs & Hws & ->).
    exists (v :: vs), (w :: ws). simpl.
    rewrite <- !app_assoc. repeat split; by f_equal.
Qed.

End LoopRuns.

(** X12: when both files of every entry load, whatever their length, the
    loop ends without an exception with one item per entry in each list;
    the reference value of an entry is [np.inf] when both signals have
    samples and [nan] when one of them has none, and in that case the value
    of the compressed file is [nan] as well. *)
Theorem process_files_total
    (load : string -> result (ndarray * Z)) (fs : list file_entry) :
  Forall (loads load) fs ->
  exists st : dataset,
    process_files load fs initial = Ok st /\
    Forall2 (reference_is load) fs (wav_snr_values st) /\
    Forall2 (compressed_is load) fs (compressed_snr_values st) /\
    algorithm_labels st = map algorithm fs /\
    file_sizes st = map size_mb fs /\
    durations st = map (fun file => IZR (duration_sec file) / 60) fs /\
    bit_rates st = map bitrate_kbps fs.
Proof.
  intros Hall.
  destruct (process_files_values load fs initial Hall)
    as (vs & ws & Hrun & Hws & Hvs).
  eexists. split; [exact Hrun|]. simpl. by repeat split.
Qed.

Lemma process_files_total_witness :
  exists st : dataset,
    process_files (load_pair [] [1]) files initial = Ok st /\
    Forall2 (reference_is (load_pair [] [1])) files (wav_snr_values st) /\
    Forall2 (compressed_is (load_pair [] [1])) files
      (compressed_snr_values st) /\
    algorithm_labels st = map algorithm files /\
    file_sizes st = map size_mb files /\
    durations st = map (fun file => IZR (duration_sec file) / 60) files /\
    bit_rates st = map bitrate_kbps files.
Proof.
  apply process_files_total.
  repeat constructor; eexists _, _, _, _; split; reflexivity.
Defined.

(** X13: the loop only appends: when it ends normally from any six lists,
    each list is the one it started from followed by one item per entry,
    and the four lists of metadata are followed by the labels, sizes,
    durations in minutes and bit rates of the entries in their order. *)
Theorem process_files_appends_only
    (load : string -> result (ndarray * Z))
    (fs : list file_entry) (st st' : dataset) :
  process_files load fs st = Ok st' ->
  exists vs ws : list npfloat,
    length vs = length fs /\ length ws = length fs /\
    compressed_snr_values st' = compressed_snr_values st ++ vs /\
    wav_snr_values st' = wav_snr_values st ++ ws /\
    algorithm_labels st' = algorithm_labels st ++ map algorithm fs /\
    file_sizes st' = file_sizes st ++ map size_mb fs /\
    durations st'
    = durations st ++ map (fun file => IZR (duration_sec file) / 60) fs /\
    bit_rates st' = bit_rates st ++ map bitrate_kbps fs.
Proof.
  intros H.
  destruct (process_files_shape load fs st st' H)
    as (vs & ws & Hvs & Hws & ->).
  by exists vs, ws.
Qed.

Lemma process_files_appends_only_witness :
  exists vs ws : list npfloat,
    length vs = length files /\ length ws = length files /\
    compressed_snr_values dataset_of_empty_files
    = compressed_snr_values initial ++ vs /\
    wav_snr_values dataset_of_empty_files = wav_snr_values initial ++ ws /\
    algorithm_labels dataset_of_empty_files
    = algorithm_labels initial ++ map algorithm files /\
    file_sizes dataset_of_empty_files
    = file_sizes initial ++ map size_mb files /\
    durations dataset_of_empty_files
    = durations initial
      ++ map (fun file => IZR (duration_sec file) / 60) files /\
    bit_rates dataset_of_empty_files
    = bit_rates initial ++ map bitrate_kbps files.
Proof.
  apply (process_files_appends_only load_nothing).
  unfold files, process_files, loop_body, load_nothing.
  cbn -[calculate_snr slice_to].
  rewrite !slice_to_nil, calculate_snr_nil. reflexivity.
Defined.

(** X14: a catalogue can be processed in two parts: running the loop on
    [fs ++ fs'] is running it on [fs] and then, from the lists obtained,
    on [fs']; an exception in the first part ends the whole run. *)
Theorem process_files_in_two_parts
    (load : string -> result (ndarray * Z))
    (fs fs' : list file_entry) (st : dataset) :
  process_files load (fs ++ fs') st
  = process_files load fs st ≫= process_files load fs'.
Proof.
  revert st. induction fs as [|file fs IH]; intros st; [done|].
  simpl. destruct (loop_body load file st) as [st1|e]; simpl; [|done].
  apply IH.
Qed.

(** * Further properties of the charts *)

Section Substitution.

Implicit Types values bars : list npfloat.

Lemma visual_not_inf (v : npfloat) :
  (if Np.eqb v Np.inf then Finite 100 else v) <> PosInf.
Proof. destruct v; simpl; discriminate. Qed.

Lemma length_visual values :
  length (visual_snr_values values) = length values.
Proof. unfold visual_snr_values. by rewrite length_map. Qed.

Lemma wav_label_loop_from_some (i : nat) bars values :
  (i + length bars <= length values)%nat ->
  wav_label_loop_from i bars values
  = Some (bar_labels (take (length bars) (drop i values))).
Proof.
  revert i. induction bars as [|bar bars IH]; intros i Hle; [done|].
  simpl in Hle. cbn [wav_label_loop_from].
  destruct (values !! i) as [v|] eqn:Hv;
    [|apply lookup_ge_None in Hv; lia].
  rewrite IH by lia. simpl.
  rewrite (drop_S values v i Hv). done.
Qed.

Lemma wav_label_loop_from_none (i : nat) bars values :
  (i <= length values)%nat ->
  (length values < i + length bars)%nat ->
  wav_label_loop_from i bars values = None.
Proof.
  revert i. induction bars as [|bar bars IH]; intros i Hi Hlt;
    [simpl in Hlt; lia|].
  simpl in Hlt. cbn [wav_label_loop_from].
  destruct (values !! i) as [v|] eqn:Hv; [|done].
  apply lookup_lt_Some in Hv.
  simpl. rewrite IH; [done | lia | lia].
Qed.

End Substitution.

(** X15: after the substitution no value is [np.inf], and substituting a
    second time changes nothing. *)
Theorem visual_snr_values_no_inf (values : list npfloat) :
  (PosInf ∉ visual_snr_values values) /\
  visual_snr_values (visual_snr_values values) = visual_snr_values values.
Proof.
  split.
  - unfold visual_snr_values. intros H.
    apply list_elem_of_fmap in H as (v & Hv & _).
    by apply (visual_not_inf v).
  - unfold visual_snr_values. rewrite <- list_fmap_compose.
    apply list_fmap_ext. intros i v _. simpl. by destruct v.
Qed.

(** X16: the loop that labels the bars of the first chart fails with an
    [IndexError] exactly when there are more bars than values; otherwise it
    gives one label per bar, made from the values at the indices of the
    bars. *)
Theorem wav_label_loop_index_error (bars values : list npfloat) :
  (wav_label_loop bars values = None <->
   (length values < length bars)%nat) /\
  ((length bars <= length values)%nat ->
   wav_label_loop bars values
   = Some (bar_labels (take (length bars) values))).
Proof.
  unfold wav_label_loop. split.
  - destruct (decide (length values < length bars)%nat) as [Hlt|Hge].
    + by rewrite wav_label_loop_from_none by (simpl; lia).
    + rewrite wav_label_loop_from_some by (simpl; lia).
      split; [discriminate | lia].
  - intros Hle. by rewrite wav_label_loop_from_some.
Qed.

Lemma wav_label_loop_index_error_witness :
  wav_label_loop [Finite 100] [PosInf; Finite 3]
  = Some (bar_labels (take (length [Finite 100]) [PosInf; Finite 3])).
Proof.
  apply (wav_label_loop_index_error [Finite 100] [PosInf; Finite 3]).
  simpl. lia.
Defined.

(** X17: the loop that labels the bars of the second chart labels as many
    bars as there are values and bars in common: values without a bar and
    bars without a value get no label, and no exception is raised. *)
Theorem compressed_label_loop_zip (values bars : list npfloat) :
  compressed_label_loop values bars
  = bar_labels (take (length bars) values) /\
  length (compressed_label_loop values bars)
  = Nat.min (length values) (length bars).
Proof.
  assert (compressed_label_loop values bars
          = bar_labels (take (length bars) values)) as H.
  { unfold compressed_label_loop, bar_labels. revert bars.
    induction values as [|v values IH]; intros [|bar bars]; simpl; try done.
    by rewrite IH. }
  split; [done|]. rewrite H. unfold bar_labels.
  rewrite length_map, length_take. lia.
Qed.

(** X18: on the lists of the script, where the bars are drawn from the
    substituted values, both loops give one label per value, the label of
    that value: the infinity glyph for [np.inf] and the number otherwise. *)
Theorem label_loops_of_script (values : list npfloat) :
  wav_label_loop (visual_snr_values values) values
  = Some (bar_labels values) /\
  compressed_label_loop values (visual_snr_values values)
  = bar_labels values.
Proof.
  split.
  - unfold wav_label_loop.
    rewrite wav_label_loop_from_some by (rewrite length_visual; simpl; lia).
    by rewrite length_visual, drop_0, firstn_all.
  - unfold compressed_label_loop, bar_labels, visual_snr_values.
    induction values as [|v values IH]; simpl; [done | by rewrite IH].
Qed.

(** X19: when both files of every entry load with samples, the first chart
    shows nothing of the data: every bar has the placeholder height 100 and
    every label is the infinity glyph. *)
Theorem first_chart_is_constant
    (load : string -> result (ndarray * Z))
    (fs : list file_entry) (st : dataset) :
  Forall (loads_signals load) fs ->
  process_files load fs initial = Ok st ->
  wav_visual_snr_values st = replicate (length fs) (Finite 100) /\
  wav_label_loop (wav_visual_snr_values st) (wav_snr_values st)
  = Some (replicate (length fs)
            {| offset := 2; text := InfinityGlyph; red := true |}).
Proof.
  intros Hall Hrun.
  destruct (process_files_appends load fs initial Hall)
    as (vs & _ & Hrun').
  rewrite Hrun in Hrun'. injection Hrun' as ->.
  unfold wav_visual_snr_values. cbn [wav_snr_values initial app].
  assert (visual_snr_values (replicate (length fs) Np.inf)
          = replicate (length fs) (Finite 100)) as Hvis.
  { unfold visual_snr_values. by rewrite fmap_replicate. }
  split; [done|].
  unfold wav_label_loop.
  rewrite wav_label_loop_from_some by (rewrite length_visual; simpl; lia).
  rewrite length_visual, drop_0, firstn_all.
  unfold bar_labels. by rewrite fmap_replicate.
Qed.

Lemma first_chart_is_constant_witness :
  wav_visual_snr_values
    {| compressed_snr_values := replicate 4 Np.inf;
       wav_snr_values := replicate 4 Np.inf;
       algorithm_labels := map algorithm files;
       file_sizes := map size_mb files;
       durations := map (fun file => IZR (duration_sec file) / 60) files;
       bit_rates := map bitrate_kbps files |}
  = replicate (length files) (Finite 100).
Proof.
  apply (first_chart_is_constant load_constant files).
  - repeat constructor; by exists [1; -1], [1; -1], 44100%Z, 44100%Z.
  - unfold files, process_files, loop_body, load_constant.
    cbn -[calculate_snr align].
    assert (align [1; -1] [1; -1] = ([1; -1], [1; -1])) as -> by done.
    assert (calculate_snr [1; -1] [1; -1] = Ok Np.inf) as ->.
    { rewrite calculate_snr_cases by done.
      by rewrite decide_True by (by apply mean_square_difference_same). }
    reflexivity.
Defined.

(** * Further properties of the heap-passing calculator *)

Section Temporaries.

Implicit Types h : gmap Heap.loc ndarray.

Lemma size_alloc h (a : ndarray) :
  size (<[fresh (dom h) := a]> h) = S (size h).
Proof. apply map_size_insert_None, fresh_unused. Qed.

Lemma calculate_snr_run_size h (x y : Heap.loc) (a b : ndarray) :
  h !! x = Some a -> h !! y = Some b ->
  size (Heap.calculate_snr x y h).2 =
    match Np.subtract a b with
    | Ok _ => (size h + 3)%nat
    | Raise _ => (size h + 1)%nat
    end.
Proof.
  intros Hx Hy. unfold Heap.calculate_snr.
  set (h1 := <[fresh (dom h) := Np.square a]> h).
  assert (h ⊆ h1) as H01 by apply alloc_extends.
  assert (size h1 = S (size h)) as Hsize1 by apply size_alloc.
  rewrite (bind_ok _ _ _ _ _ (square_run h x a Hx)). fold h1.
  assert (h1 !! fresh (dom h) = Some (Np.square a)) as Hsq
    by apply lookup_insert_eq.
  rewrite (bind_ok _ _ _ _ _ (mean_run h1 _ _ Hsq)).
  pose proof (subtract_run h1 x y a b
                (lookup_weaken _ _ _ _ Hx H01)
                (lookup_weaken _ _ _ _ Hy H01)) as Hsub.
  destruct (Np.subtract a b) as [d|e].
  - rewrite (bind_ok _ _ _ _ _ Hsub).
    set (h2 := <[fresh (dom h1) := d]> h1).
    assert (size h2 = S (size h1)) as Hsize2 by apply size_alloc.
    assert (h2 !! fresh (dom h1) = Some d) as Hd by apply lookup_insert_eq.
    rewrite (bind_ok _ _ _ _ _ (square_run h2 _ _ Hd)).
    set (h3 := <[fresh (dom h2) := Np.square d]> h2).
    assert (size h3 = S (size h2)) as Hsize3 by apply size_alloc.
    assert (h3 !! fresh (dom h2) = Some (Np.square d)) as Hsq'
      by apply lookup_insert_eq.
    rewrite (bind_ok _ _ _ _ _ (mean_run h3 _ _ Hsq')).
    destruct (Np.eqb (Np.mean (Np.square d)) (Finite 0)); simpl; lia.
  - rewrite (bind_raise _ _ _ _ _ Hsub). simpl. lia.
Qed.

End Temporaries.

(** X20: a call of [calculate_snr] that returns a value creates three
    arrays (the squared reference, the difference and the squared
    difference); a call that raises [ValueError] has created one (the
    squared reference) before the subtraction fails. *)
Theorem calculate_snr_temporaries
    (h : gmap Heap.loc ndarray) (x y : Heap.loc) (a b : ndarray) :
  h !! x = Some a -> h !! y = Some b ->
  ((exists v, calculate_snr a b = Ok v) ->
   size (Heap.calculate_snr x y h).2 = (size h + 3)%nat) /\
  ((exists e, calculate_snr a b = Raise e) ->
   size (Heap.calculate_snr x y h).2 = (size h + 1)%nat).
Proof.
  intros Hx Hy. rewrite (calculate_snr_run_size h x y a b Hx Hy).
  rewrite calculate_snr_subtract.
  destruct (Np.subtract a b) as [d|e]; split; intros [? H]; done.
Qed.

Lemma calculate_snr_temporaries_witness :
  let p : Heap.loc := 1%positive in
  let h : gmap Heap.loc ndarray := {[ p := [1; 1] ]} in
  size (Heap.calculate_snr p p h).2 = (size h + 3)%nat.
Proof.
  intros p h.
  apply (calculate_snr_temporaries h p p [1; 1] [1; 1]).
  - apply lookup_singleton_eq.
  - apply lookup_singleton_eq.
  - eexists. apply calculate_snr_cases; done.
Defined.

(** * calculate_snr in binary64

    What the exact embedding cannot show: in binary64 a small difference
    has the square zero, and a large sample has the square infinity. *)

(** The signals [[1; 2^-600]] and [[1; 0]] differ, the squared difference
    underflows, and line 10 returns [np.inf]. *)
Example float64_underflow :
  Float64.calculate_snr [1; 0x1p-600]%float [1; 0]%float
  = Some (Ok Float64.Line10).
Proof. reflexivity. Qed.

(** For [[2^600]] against [[0]] both powers overflow to infinity, the
    quotient is [nan], and so is the value returned by line 11. *)
Example float64_overflow :
  Float64.calculate_snr [0x1p600]%float [0]%float
  = Some (Ok (Float64.Line11 nan)) /\
  Float64.value (Float64.Line11 nan) = Some nan.
Proof. split; reflexivity. Qed.

(** An empty array: the mean is [0 / 0], and line 11 returns [nan]. *)
Example float64_empty :
  Float64.calculate_snr [] [] = Some (Ok (Float64.Line11 nan)).
Proof. reflexivity. Qed.

(** The values of [Warned.calculate_snr] are those of [calculate_snr]. *)
Lemma warned_value (a b : ndarray) :
  (Warned.calculate_snr a b).1 = calculate_snr a b.
Proof.
  rewrite calculate_snr_subtract. unfold Warned.calculate_snr. simpl.
  destruct (Np.subtract a b) as [d|e]; [|done].
  by destruct (Np.eqb _ _).
Qed.
